(** * Brownian-motion simulation notebook: covariance assembly, path
      sampling and the Hurst estimator

    Shallow embedding of the code cells of [bm-simulation.ipynb].

    The notebook computes with numpy [float64] values and with Python
    integers.  The arithmetic is kept abstract: every definition of the
    program is written over a type [F] of floating values with the
    operations of the class [Arith], in the order in which the source
    applies them.  Theorems about loops, indices, mirroring and raised
    exceptions are proved for every implementation of [Arith]; theorems that
    need algebra are proved for the instance over the real numbers (exact
    arithmetic, no rounding); theorems about infinities and nan are proved
    for the instance over the reals extended with the IEEE special values.
    Where rounding decides, the statement is made in the standard model of
    rounding (every operation returns its exact result with a bounded
    relative error), and a value that float64 computes is computed in the
    binary64 format itself.

    Library calls ([np.linalg.cholesky], [scipy.integrate.quad], [np.mean],
    [np.std], the random generator) are parameters of the definitions that
    call them. *)

From Stdlib Require Import ZArith Reals Lra Lia SpecFloat.
From stdpp Require Import base option list.

Set Default Proof Using "Type".

(** ** Exceptions *)

(** The exceptions the cells can raise. *)
Inductive exn : Type :=
  | IndexError
  | KeyError
  | ZeroDivisionError
  | LinAlgError.

(** The outcome of a computation: a value, or a raised exception. *)
Inductive outcome (A : Type) : Type :=
  | Ok (a : A)
  | Raise (e : exn).
Arguments Ok {A} a.
Arguments Raise {A} e.

#[global] Instance outcome_ret : MRet outcome := λ A a, Ok a.
#[global] Instance outcome_bind : MBind outcome := λ A B f m,
  match m with
  | Ok a => f a
  | Raise e => Raise e
  end.

(** [l[i]] for a natural index: [IndexError] out of range. *)
Definition idx {A : Type} (l : list A) (i : nat) : outcome A :=
  match l !! i with
  | Some x => Ok x
  | None => Raise IndexError
  end.

(** [l[i] = v]: [IndexError] out of range. *)
Definition setitem {A : Type} (l : list A) (i : nat) (v : A) : outcome (list A) :=
  if decide (i < length l) then Ok (<[i:=v]> l) else Raise IndexError.

(** [range(a, b)]. *)
Definition range (a b : nat) : list nat := seq a (b - a).

(** [for i in ixs: s = body i s], stopping at the first raised exception. *)
Fixpoint for_loop {I S : Type} (ixs : list I) (body : I → S → outcome S) (s : S)
    : outcome S :=
  match ixs with
  | [] => Ok s
  | i :: rest => s' ← body i s; for_loop rest body s'
  end.

(** ** Arithmetic *)

(** The operations the notebook applies to floating values. *)
Class Arith (F : Type) : Type := {
  of_int : Z → F;          (* an integer literal used as a float *)
  half : F;                (* the literal 0.5 *)
  fadd : F → F → F;        (* x + y *)
  fsub : F → F → F;        (* x - y *)
  fmul : F → F → F;        (* x * y *)
  fdiv : F → F → F;        (* x / y on float64: no exception *)
  fpow : F → F → F;        (* x ** y *)
  fabs : F → F;            (* np.abs *)
  flog : F → F;            (* np.log *)
}.

Declare Scope float_scope.
Delimit Scope float_scope with fl.
Infix "+" := fadd : float_scope.
Infix "-" := fsub : float_scope.
Infix "*" := fmul : float_scope.
Infix "/" := fdiv : float_scope.
Infix "**" := fpow (at level 30, right associativity) : float_scope.

(** A number held by a Python variable or list: a Python integer, or a
    float (a Python [float] or a numpy [float64], the same values). *)
Inductive pynum (F : Type) : Type :=
  | PyInt (n : Z)
  | PyFloat (x : F).
Arguments PyInt {F} n.
Arguments PyFloat {F} x.

(** A two-dimensional array, as the list of its rows. *)
Abbreviation matrix F := (list (list F)) (only parsing).

(** The dictionaries [X_frac] and [X_riem]: the batch stored under each
    [alpha], in insertion order. *)
Abbreviation dict F := (list (F * list (list F))) (only parsing).

Section Program.
Context {F : Type} `{Arith F}.
Local Open Scope float_scope.

(** The float a number is converted to when it meets a float. *)
Definition to_float (a : pynum F) : F :=
  match a with
  | PyInt n => of_int n
  | PyFloat x => x
  end.

(** [a + x] for a float [x]: the result is a float. *)
Definition py_add (a : pynum F) (x : F) : pynum F :=
  PyFloat (to_float a + x).

(** [a / b]: two Python integers raise [ZeroDivisionError] on a zero
    divisor; as soon as one side is a [float64] the division is numpy's and
    raises nothing. *)
Definition py_truediv (a b : pynum F) : outcome F :=
  match a, b with
  | PyInt n, PyInt d =>
      if decide (d = 0%Z) then Raise ZeroDivisionError
      else Ok (of_int n / of_int d)
  | _, _ => Ok (to_float a / to_float b)
  end.

(** ** The Hurst estimator cell *)

(** [np.abs(X[i] - 2 * X[i - 2] + X[i - 4]) ** 2].  The loop index is at
    least 5, so no index is negative. *)
Definition s1_term (X : list F) (i : nat) : outcome F :=
  a ← idx X i;
  b ← idx X (i - 2);
  c ← idx X (i - 4);
  Ok (fabs (a - of_int 2 * b + c) ** of_int 2).

(** [np.abs(X[i] - 2 * X[i - 1] + X[i - 2]) ** 2]. *)
Definition s2_term (X : list F) (i : nat) : outcome F :=
  a ← idx X i;
  b ← idx X (i - 1);
  c ← idx X (i - 2);
  Ok (fabs (a - of_int 2 * b + c) ** of_int 2).

(** [s1 = 0; for i in range(5, len(X)): s1 += ...]. *)
Definition hurst_s1 (X : list F) : outcome (pynum F) :=
  for_loop (range 5 (length X))
    (λ i s1, t ← s1_term X i; Ok (py_add s1 t)) (PyInt 0).

(** [s2 = 0; for i in range(3, len(X)): s2 += ...]. *)
Definition hurst_s2 (X : list F) : outcome (pynum F) :=
  for_loop (range 3 (length X))
    (λ i s2, t ← s2_term X i; Ok (py_add s2 t)) (PyInt 0).

(** [np.log(s1 / s2) / (2 * np.log(2)) - alpha]. *)
Definition hurst_final (s1 s2 : pynum F) (alpha : F) : outcome F :=
  q ← py_truediv s1 s2;
  Ok (flog q / (of_int 2 * flog (of_int 2)) - alpha).

(** The body of [for X in X_frac[alpha]], up to the value appended to [L]. *)
Definition hurst_estimate (alpha : F) (X : list F) : outcome F :=
  s1 ← hurst_s1 X;
  s2 ← hurst_s2 X;
  hurst_final s1 s2 alpha.

(** [L = []; for X in Xs: ...; L.append(...)]: the list handed to
    [np.mean] and [np.std].  The cell for [X_frac] and the cell for
    [X_riem] are the same code. *)
Definition hurst_L (alpha : F) (Xs : list (list F)) : outcome (list F) :=
  for_loop Xs (λ X L, e ← hurst_estimate alpha X; Ok (L ++ [e])) [].

(** [np.mean] and [np.std] on a list. *)
Section Aggregation.
Variables np_mean np_std : list F → F.

(** One iteration of the estimator cell's [for alpha in alphas], given the
    batch [X_frac[alpha]]: the pair printed as centered mean and standard
    deviation. *)
Definition hurst_report (alpha : F) (Xs : list (list F)) : outcome (F * F) :=
  L ← hurst_L alpha Xs;
  Ok (np_mean L, np_std L).

End Aggregation.

(** ** Matrices *)

(** [np.zeros((n, m))]. *)
Definition np_zeros (n m : nat) : matrix F := replicate n (replicate m (of_int 0)).

(** [M[i, j]]. *)
Definition mat_get (M : matrix F) (i j : nat) : outcome F :=
  row ← idx M i; idx row j.

(** [M[i, j] = v]. *)
Definition mat_set (M : matrix F) (i j : nat) (v : F) : outcome (matrix F) :=
  row ← idx M i;
  row' ← setitem row j v;
  setitem M i row'.

(** The sum of the products of two vectors, left to right. *)
Definition dot_row (row z : list F) : F :=
  foldl (λ acc p, acc + p.1 * p.2) (of_int 0) (zip row z).

(** [np.dot(C, z)] for a matrix [C] and a vector [z]. *)
Definition np_dot (C : matrix F) (z : list F) : list F :=
  map (λ row, dot_row row z) C.

(** ** Covariance assembly *)

Section Grid.
(** The global [time] array; the global [N] is its length. *)
Variable time : list F.
Definition N : nat := length time.

(** The fBm cell's right-hand side for [mat_cov[t, s]], as a function of
    [time[t]] and [time[s]]. *)
Definition fbm_entry (alpha : F) (tt ts : F) : F :=
  half * (tt ** (of_int 2 * alpha) + ts ** (of_int 2 * alpha)
          - fabs (tt - ts) ** (of_int 2 * alpha)).

(** [scipy.integrate.quad(f, a, b)]: the pair of the estimate and of the
    error bound. *)
Variable quad : (F → F) → F → F → F * F.

(** The Riemann-Liouville cell's right-hand side for [mat_cov[t, s]]. *)
Definition rl_entry (alpha : F) (tt ts : F) : F :=
  (quad (λ x, (tt - x) ** (alpha - half) * (ts - x) ** (alpha - half))
        (of_int 0) ts).1.

(** The two cells run the same pair of loops and differ in the expression
    assigned to [mat_cov[t, s]], here [entry time[t] time[s]].

    The body of the inner loop, after the [break] test:
    [mat_cov[t, s] = ...; mat_cov[s, t] = mat_cov[t, s]]. *)
Definition cov_body (entry : F → F → F) (t s : nat) (M : matrix F) : outcome (matrix F) :=
  tt ← idx time t;
  ts ← idx time s;
  M1 ← mat_set M t s (entry tt ts);
  v ← mat_get M1 t s;
  mat_set M1 s t v.

(** [for s in range(N): if (s > t): break; ...]. *)
Fixpoint cov_row (ss : list nat) (entry : F → F → F) (t : nat) (M : matrix F)
    : outcome (matrix F) :=
  match ss with
  | [] => Ok M
  | s :: rest =>
      if decide (t < s) then Ok M
      else M' ← cov_body entry t s M; cov_row rest entry t M'
  end.

(** [mat_cov = np.zeros((N, N)); for t in range(N): ...]. *)
Definition assemble (entry : F → F → F) : outcome (matrix F) :=
  for_loop (range 0 N) (λ t M, cov_row (range 0 N) entry t M) (np_zeros N N).

Definition fbm_mat_cov (alpha : F) : outcome (matrix F) := assemble (fbm_entry alpha).
Definition rl_mat_cov (alpha : F) : outcome (matrix F) := assemble (rl_entry alpha).

(** ** Path sampling *)

(** The random generator: [normal k] is the value of the [k]-th standard
    normal draw since the start of the run; the state of the generator is
    the number of draws made so far. *)
Variable normal : nat → F.

(** [np.random.normal(0, 1, n)] with the generator at [k]. *)
Definition normal_vec (k n : nat) : list F := map normal (seq k n).

(** The Brownian-motion cell: [W = [0]; for i in range(1, N):
    W.append(W[i-1] + np.random.normal(0, 1))].  The list starts with the
    integer 0; the state of the loop is the list and the generator. *)
Definition brownian_path (k : nat) : outcome (list (pynum F) * nat) :=
  for_loop (range 1 N)
    (λ i st, w ← idx st.1 (i - 1); Ok (st.1 ++ [py_add w (normal st.2)], S st.2))
    ([PyInt 0], k).

(** [for n in range(5): ...; plt.plot(time, W, ...)]: the paths handed to
    the plot, in order.  The plot itself is not modelled.  It raises when
    [W] and [time] differ in length, which happens on the grid without times
    only ([W] has one entry then); the definition stands for the cell on the
    grids of at least one time. *)
Definition brownian_cell (k : nat) : outcome (list (list (pynum F)) * nat) :=
  for_loop (range 0 5)
    (λ n st, r ← brownian_path st.2; Ok (st.1 ++ [r.1], r.2))
    ([], k).

(** [np.linalg.cholesky]: the factor, or [None] for [LinAlgError]. *)
Variable cholesky : matrix F → option (matrix F).

(** [Y = np.dot(C, np.random.normal(0, 1, N)); Y[0] = 0]. *)
Definition draw_path (C : matrix F) (k : nat) : outcome (list F * nat) :=
  Y ← setitem (np_dot C (normal_vec k N)) 0 (of_int 0);
  Ok (Y, (k + N)%nat).

(** [for i in range(5): ...; Y_list.append(Y)]. *)
Definition draw_batch (C : matrix F) (k : nat) : outcome (list (list F) * nat) :=
  for_loop (range 0 5)
    (λ i st, r ← draw_path C st.2; Ok (st.1 ++ [r.1], r.2))
    ([], k).

(** One iteration of [for alpha in alphas], up to [Y_list]: assembly,
    factorization, five draws. *)
Definition gen_unit (entry : F → F → F) (k : nat) : outcome (list (list F) * nat) :=
  mat_cov ← assemble entry;
  C ← match cholesky mat_cov with
      | Some C => Ok C
      | None => Raise LinAlgError
      end;
  draw_batch C k.

Context `{EqDecision F}.

(** [d[key] = v]. *)
Fixpoint dict_set (d : dict F) (key : F) (v : list (list F)) : dict F :=
  match d with
  | [] => [(key, v)]
  | (key', v') :: d' =>
      if decide (key' = key) then (key, v) :: d'
      else (key', v') :: dict_set d' key v
  end.

(** [d[key]]. *)
Fixpoint dict_get (d : dict F) (key : F) : outcome (list (list F)) :=
  match d with
  | [] => Raise KeyError
  | (key', v') :: d' => if decide (key' = key) then Ok v' else dict_get d' key
  end.

(** [for alpha in alphas: ...; X[alpha] = Y_list].  An exception ends the
    loop; the dictionary keeps what the earlier iterations stored. *)
Fixpoint gen_cell (entry : F → F → F → F) (alphas : list F) (X : dict F) (k : nat)
    : dict F * outcome nat :=
  match alphas with
  | [] => (X, Ok k)
  | alpha :: rest =>
      match gen_unit (entry alpha) k with
      | Ok (Y_list, k') => gen_cell entry rest (dict_set X alpha Y_list) k'
      | Raise e => (X, Raise e)
      end
  end.

(** The fBm cell and the Riemann-Liouville cell, from [X_frac = {}] and
    [X_riem = {}]. *)
Definition fbm_cell (alphas : list F) (k : nat) : dict F * outcome nat :=
  gen_cell fbm_entry alphas [] k.
Definition rl_cell (alphas : list F) (k : nat) : dict F * outcome nat :=
  gen_cell rl_entry alphas [] k.

End Grid.

End Program.

(** ** The remaining cells *)

Section MoreCells.
Context {F : Type} `{Arith F}.
Local Open Scope float_scope.

(** [list.sort()] on floats: the stable ascending sort, which compares with
    [<].  It is written here as insertion from the left, each element going
    before the first element it is smaller than; on an order this is the
    list the library's sort returns. *)
Section Sort.
Variable lt : F → F → bool.

Fixpoint py_insert (x : F) (l : list F) : list F :=
  match l with
  | [] => [x]
  | y :: l' => if lt x y then x :: y :: l' else y :: py_insert x l'
  end.

Definition py_sort (l : list F) : list F := foldl (λ acc x, py_insert x acc) [] l.

(** The cell that draws the values of [alpha]:
    [alphas = [np.random.random() / 2, np.random.random() / 2, 0.5,
    0.5 + np.random.random() / 2, 0.5 + np.random.random() / 2];
    alphas.sort()].  [uniform j] is the value of the [j]-th uniform draw; the
    four draws are made from left to right. *)
Definition alphas_cell (uniform : nat → F) (k : nat) : list F * nat :=
  (py_sort [uniform k / of_int 2;
            uniform (k + 1)%nat / of_int 2;
            half;
            half + uniform (k + 2)%nat / of_int 2;
            half + uniform (k + 3)%nat / of_int 2],
   (k + 4)%nat).

End Sort.

Context `{EqDecision F}.
Variables np_mean np_std : list F → F.

(** The estimator cell: [for alpha in alphas: L = []; for X in
    X_frac[alpha]: ...; print(...)].  The lines printed so far, each an
    [alpha] with its mean and standard deviation, survive an exception. *)
Fixpoint hurst_cell (X_frac : dict F) (alphas : list F) (out : list (F * (F * F)))
    : list (F * (F * F)) * outcome unit :=
  match alphas with
  | [] => (out, Ok tt)
  | alpha :: rest =>
      match Xs ← dict_get X_frac alpha; hurst_report np_mean np_std alpha Xs with
      | Ok r => hurst_cell X_frac rest (out ++ [(alpha, r)])
      | Raise e => (out, Raise e)
      end
  end.

End MoreCells.

(** ** Exact arithmetic: the instance over the real numbers *)

(** [x ** y] on the reals, for a non-negative base: [x ** 0] is 1 (also for
    [x = 0]), [0 ** y] is 0 for a positive [y], and a positive base is raised
    by [exp (y * ln x)].  For a negative base, or for base 0 with a negative
    exponent, numpy answers nan or inf, which no real number models; there
    the instance with the special values below is the model, and the two
    agree on a non-negative base and exponent ([xpow_Fin]). *)
Definition Rpow (x y : R) : R :=
  if Req_dec_T y 0 then 1%R
  else if Req_dec_T x 0 then 0%R
  else Rpower x y.

#[global] Instance R_arith : Arith R := {|
  of_int := IZR;
  half := (/ 2)%R;
  fadd := Rplus;
  fsub := Rminus;
  fmul := Rmult;
  fdiv := Rdiv;
  fpow := Rpow;
  fabs := Rabs;
  flog := ln;
|}.

#[global] Instance R_eq_dec : EqDecision R := Req_dec_T.

(** ** Arithmetic with the IEEE special values

    The reals extended with the two infinities and nan, with the results
    IEEE 754 and the C library give for them: division by zero and the
    logarithm of zero raise no exception and answer an infinity, undefined
    operations answer nan.  Finite results are exact (no rounding, no
    overflow) and zero stands for the positive zero. *)

Section ExtendedReals.
Local Open Scope R_scope.

Inductive xreal : Type :=
  | Fin (r : R)
  | PInf
  | NInf
  | NaN.

(** [- x]. *)
Definition xneg (x : xreal) : xreal :=
  match x with
  | Fin a => Fin (- a)
  | PInf => NInf
  | NInf => PInf
  | NaN => NaN
  end.

(** [x + y]: the sum of the two opposite infinities is nan. *)
Definition xadd (x y : xreal) : xreal :=
  match x, y with
  | NaN, _ | _, NaN => NaN
  | Fin a, Fin b => Fin (a + b)
  | PInf, NInf | NInf, PInf => NaN
  | PInf, _ | _, PInf => PInf
  | NInf, _ | _, NInf => NInf
  end.

(** [x - y]. *)
Definition xsub (x y : xreal) : xreal := xadd x (xneg y).

(** The sign of a value: -1, 0 or 1. *)
Definition xsign (x : xreal) : Z :=
  match x with
  | Fin a => if Rlt_dec 0 a then 1%Z else if Rlt_dec a 0 then (-1)%Z else 0%Z
  | PInf => 1%Z
  | NInf => (-1)%Z
  | NaN => 0%Z
  end.

(** The infinity of a sign; nan for the sign of zero. *)
Definition xinf (s : Z) : xreal :=
  match s with
  | Zpos _ => PInf
  | Zneg _ => NInf
  | Z0 => NaN
  end.

(** [x * y]: an infinity times zero is nan. *)
Definition xmul (x y : xreal) : xreal :=
  match x, y with
  | NaN, _ | _, NaN => NaN
  | Fin a, Fin b => Fin (a * b)
  | _, _ => xinf (xsign x * xsign y)
  end.

(** [x / y] on float64: a non-zero number over zero is an infinity, zero
    over zero and an infinity over an infinity are nan, a finite number over
    an infinity is zero. *)
Definition xdiv (x y : xreal) : xreal :=
  match x, y with
  | NaN, _ | _, NaN => NaN
  | Fin a, Fin b => if Req_dec_T b 0 then xinf (xsign x) else Fin (a / b)
  | Fin a, _ => Fin 0
  | _, Fin b => if Rlt_dec b 0 then xneg x else x
  | _, _ => NaN
  end.

(** [np.abs]. *)
Definition xabs (x : xreal) : xreal :=
  match x with
  | Fin a => Fin (Rabs a)
  | PInf | NInf => PInf
  | NaN => NaN
  end.

(** [np.log]: minus infinity at zero, nan below zero. *)
Definition xlog (x : xreal) : xreal :=
  match x with
  | Fin a => if Rlt_dec 0 a then Fin (ln a) else if Req_dec_T a 0 then NInf else NaN
  | PInf => PInf
  | NInf | NaN => NaN
  end.

(** A real is an integer; is an odd integer. *)
Definition is_integer (y : R) : bool := bool_decide (y = IZR (Int_part y)).
Definition is_odd_integer (y : R) : bool := is_integer y && Z.odd (Int_part y).

(** [x ** y], with the special cases of the C library's [pow]: anything to
    the power zero is 1, one to any power is 1, zero to a negative power is
    an infinity, a negative base to a power that is not an integer is nan. *)
Definition xpow (x y : xreal) : xreal :=
  match y with
  | Fin b =>
      if Req_dec_T b 0 then Fin 1
      else match x with
           | Fin a =>
               if Rlt_dec 0 a then Fin (Rpower a b)
               else if Req_dec_T a 0 then (if Rlt_dec 0 b then Fin 0 else PInf)
               else if is_integer b
                    then Fin ((if is_odd_integer b then -1 else 1) * Rpower (- a) b)
                    else NaN
           | PInf => if Rlt_dec 0 b then PInf else Fin 0
           | NInf =>
               if Rlt_dec 0 b then (if is_odd_integer b then NInf else PInf)
               else Fin 0
           | NaN => NaN
           end
  | PInf =>
      match x with
      | Fin a =>
          if Req_dec_T (Rabs a) 1 then Fin 1
          else if Rlt_dec (Rabs a) 1 then Fin 0 else PInf
      | PInf | NInf => PInf
      | NaN => NaN
      end
  | NInf =>
      match x with
      | Fin a =>
          if Req_dec_T (Rabs a) 1 then Fin 1
          else if Rlt_dec (Rabs a) 1 then PInf else Fin 0
      | PInf | NInf => Fin 0
      | NaN => NaN
      end
  | NaN =>
      match x with
      | Fin a => if Req_dec_T a 1 then Fin 1 else NaN
      | _ => NaN
      end
  end.

#[global] Instance xreal_arith : Arith xreal := {|
  of_int n := Fin (IZR n);
  half := Fin (/ 2);
  fadd := xadd;
  fsub := xsub;
  fmul := xmul;
  fdiv := xdiv;
  fpow := xpow;
  fabs := xabs;
  flog := xlog;
|}.

End ExtendedReals.

(** ** Arithmetic with rounding

    The standard model of floating-point arithmetic over the reals: every
    operation returns the rounding [rnd] of its exact result.  The literal
    0.5 is a float and is kept as it is; [np.abs] is exact.  What a rounding
    is assumed to satisfy is gathered in [rounding]: a relative error of at
    most [u] (which leaves out overflow and underflow), floats are rounded
    to themselves, the rounding of the opposite is the opposite, and 1 and 2
    are floats.  Round-to-nearest of float64 satisfies these with
    [u = 2^-53] as long as nothing overflows or underflows. *)

Section RoundedReals.
Local Open Scope R_scope.
Variable rnd : R → R.

Definition rounded_arith : Arith R := {|
  of_int n := rnd (IZR n);
  half := / 2;
  fadd x y := rnd (x + y);
  fsub x y := rnd (x - y);
  fmul x y := rnd (x * y);
  fdiv x y := rnd (x / y);
  fpow x y := rnd (Rpow x y);
  fabs := Rabs;
  flog x := rnd (ln x);
|}.

End RoundedReals.

Record rounding (u : R) (rnd : R → R) : Prop := {
  rnd_error : ∀ x, (Rabs (rnd x - x) <= u * Rabs x)%R;
  rnd_idem : ∀ x, rnd (rnd x) = rnd x;
  rnd_opp : ∀ x, rnd (- x)%R = (- rnd x)%R;
  rnd_one : rnd 1%R = 1%R;
  rnd_two : rnd 2%R = 2%R;
}.

(** A rounding for the examples: 3 and −3 are not floats and are moved by an
    eighth, every other number is a float. *)
Definition rnd_toy (x : R) : R :=
  if Req_dec_T x 3 then (25 / 8)%R
  else if Req_dec_T x (-3) then (- (25 / 8))%R
  else x.

(** ** Arithmetic in binary64

    The float64 values and operations of numpy, as the Standard Library
    specifies the binary64 format (53 bits of precision, round to nearest
    even): [of_int] converts an integer, sum, difference, product, quotient
    and absolute value are the operations of the format.  The power and the
    logarithm come from the C library and are parameters; of the power the
    statements assume only that it returns its base at the exponent 1. *)

Section Binary64.

Definition b64_of_Z (n : Z) : spec_float := binary_normalize 53 1024 n 0 false.

Variable pow : spec_float → spec_float → spec_float.
Variable log : spec_float → spec_float.

Definition b64_arith : Arith spec_float := {|
  of_int := b64_of_Z;
  half := SFdiv 53 1024 (b64_of_Z 1) (b64_of_Z 2);
  fadd := SFadd 53 1024;
  fsub := SFsub 53 1024;
  fmul := SFmul 53 1024;
  fdiv := SFdiv 53 1024;
  fpow := pow;
  fabs := SFabs;
  flog := log;
|}.

(** [pow(x, 1.0)] is [x]. *)
Definition pow_keeps_base_at_one : Prop := ∀ x, pow x (b64_of_Z 1) = x.

End Binary64.

(** The floats 0.1 and 0.3: the floats nearest to 1/10 and to 3/10. *)
Definition b64_tenth : spec_float := SFdiv 53 1024 (b64_of_Z 1) (b64_of_Z 10).
Definition b64_three_tenths : spec_float := SFdiv 53 1024 (b64_of_Z 3) (b64_of_Z 10).

(** * Vocabulary of the statements *)

Section Vocabulary.
Context {F : Type} `{Arith F}.
Local Open Scope float_scope.

(** ** The estimator *)

(** [X[i]] for an index in range. *)
Definition at_index (X : list F) (i : nat) : F := default (of_int 0) (X !! i).

(** The squared second difference [|X[i] − 2·X[i−lag] + X[i−2·lag]|²]. *)
Definition second_diff (X : list F) (lag i : nat) : F :=
  fabs (at_index X i - of_int 2 * at_index X (i - lag) + at_index X (i - 2 * lag))
    ** of_int 2.

(** The sum of [f i] for [i] from [a] to [b − 1], from zero, in increasing
    order of [i]. *)
Definition sigma (a b : nat) (f : nat → F) : F :=
  foldl (λ acc i, acc + f i) (of_int 0) (range a b).

(** The estimator computes [s1] as the sum from [a1], [s2] as the sum from
    [a2], and returns [log(s1/s2)/(2·log 2) − α]. *)
Definition estimator_sums_from (a1 a2 : nat) (X : list F) (alpha : F) : Prop :=
  ∃ s1 s2 : pynum F,
    hurst_s1 X = Ok s1 ∧ to_float s1 = sigma a1 (length X) (second_diff X 2) ∧
    hurst_s2 X = Ok s2 ∧ to_float s2 = sigma a2 (length X) (second_diff X 1) ∧
    hurst_estimate alpha X
      = Ok (flog (to_float s1 / to_float s2) / (of_int 2 * flog (of_int 2)) - alpha).

(** The value the estimator appends for a path on which the division
    raises nothing. *)
Definition estimate_value (alpha : F) (X : list F) : F :=
  flog (sigma 5 (length X) (second_diff X 2) / sigma 3 (length X) (second_diff X 1))
    / (of_int 2 * flog (of_int 2)) - alpha.

(** A path is degenerate when it is shorter than 5 or its [s2] is zero. *)
Definition degenerate (X : list F) : Prop :=
  length X < 5 ∨ ∃ s2, hurst_s2 X = Ok s2 ∧ to_float s2 = of_int 0.

(** The path [X] of a batch is left out of the list that is aggregated. *)
Definition excluded_from_aggregation (alpha : F) (Xs1 : list (list F)) (X : list F)
    (Xs2 : list (list F)) : Prop :=
  hurst_L alpha (Xs1 ++ X :: Xs2) = hurst_L alpha (Xs1 ++ Xs2).

(** ** Matrices and the assembly *)

(** A one-point midpoint rule, standing for [quad] in the examples. *)
Definition midpoint_rule (f : F → F) (a b : F) : F * F :=
  ((b - a) * f ((a + b) / of_int 2), of_int 0).

(** The entry of a matrix at a position, when there is one. *)
Definition mat_lookup (M : matrix F) (i j : nat) : option F :=
  M !! i ≫= λ row, row !! j.

(** An [n] by [n] array. *)
Definition square (n : nat) (M : matrix F) : Prop :=
  length M = n ∧ ∀ i row, M !! i = Some row → length row = n.

Section OnGrid.
Variable time : list F.

Section OneKernel.
Variable entry : F → F → F.

(** The value the loops assign for the pair of positions [(t, s)]. *)
Definition assigned (t s : nat) : F := entry (at_index time t) (at_index time s).

(** The loop invariant: the array is square, and every position whose
    larger index is below [t], or equal to [t] with the smaller index below
    [s], holds the value assigned for its (larger, smaller) pair. *)
Definition filled (t s : nat) (M : matrix F) : Prop :=
  square (N time) M ∧
  ∀ i j, i < N time → j < N time →
    i `max` j < t ∨ (i `max` j = t ∧ i `min` j < s) →
    mat_lookup M i j = Some (assigned (i `max` j) (i `min` j)).

End OneKernel.

(** ** Sampling and the per-alpha loop *)

Variable normal : nat → F.

(** What holds of the Brownian list and generator when the loop is about
    to run index [i]. *)
Definition bm_inv (k i : nat) (st : list (pynum F) * nat) : Prop :=
  length st.1 = i ∧ st.2 = (k + (i - 1))%nat ∧
  st.1 !! 0%nat = Some (PyInt 0) ∧
  ∀ j, 1 ≤ j → j < i →
    ∃ w, st.1 !! (j - 1)%nat = Some w ∧
         st.1 !! j = Some (py_add w (normal (k + (j - 1))%nat)).

Variable cholesky : matrix F → option (matrix F).
Variable entry : F → F → F → F.

(** The factorization of the matrix assembled for [alpha] fails. *)
Definition factorization_fails (alpha : F) : Prop :=
  ∃ M, assemble time (entry alpha) = Ok M ∧ cholesky M = None.

(** The factorization of the matrix assembled for [alpha] returns a factor
    with at least one row. *)
Definition factorization_succeeds (alpha : F) : Prop :=
  ∃ M C, assemble time (entry alpha) = Ok M ∧ cholesky M = Some C ∧ C ≠ [].

End OnGrid.

(** The paths of every batch of a dictionary start with zero. *)
Definition paths_start_at_zero (X : dict F) : Prop :=
  Forall (λ kv, Forall (λ Y, Y !! 0%nat = Some (of_int 0)) kv.2) X.

Context `{EqDecision F}.

(** [alpha] has been processed: its batch is in the dictionary. *)
Definition processed (X : dict F) (alpha : F) : Prop :=
  ∃ batch, dict_get X alpha = Ok batch.

End Vocabulary.

(** ** Finite paths and the special values *)

Section RealVocabulary.
Local Open Scope R_scope.

(** The two sums of a path of reals, in exact arithmetic. *)
Definition S1 (xs : list R) : R := sigma 5 (length xs) (second_diff xs 2).
Definition S2 (xs : list R) : R := sigma 3 (length xs) (second_diff xs 1).

(** The value [log(s1/s2)/(2·log 2) − a] in the extended reals, for two
    non-negative sums. *)
Definition estimate_of_sums (s1 s2 a : R) : xreal :=
  if Req_dec_T s2 0 then (if Req_dec_T s1 0 then NaN else PInf)
  else if Req_dec_T s1 0 then NInf
  else Fin (ln (s1 / s2) / (2 * ln 2) - a).

(** A value that is an infinity or nan. *)
Definition not_finite (x : xreal) : Prop := x = PInf ∨ x = NInf ∨ x = NaN.

(** ** A concrete factorizer and concrete inputs *)

(** [np.linalg.cholesky] in exact arithmetic, for the examples that need a
    concrete factorizer: the lower-triangular factor row by row, reading the
    lower triangle of the input, and failing as soon as a pivot is not
    positive.  [chol_left] computes the entries of a row left of the
    diagonal from the rows above. *)
Definition chol_left (Arow : list R) (Ls : matrix R) (acc : list R) : list R :=
  foldl (λ acc Lj,
           acc ++ [((at_index Arow (length acc) - dot_row acc Lj)
                    / at_index Lj (length acc))%R])
        acc Ls.

(** The rows of the factor below the rows [Ls] already computed: the pivot
    of a row is the square root of what is left of the diagonal entry, and
    the rows are padded with zeros to the length [n]. *)
Fixpoint chol_rows (n : nat) (A : matrix R) (Ls : matrix R) : option (matrix R) :=
  match A with
  | [] => Some Ls
  | Arow :: A' =>
      let left := chol_left Arow Ls [] in
      let d := (at_index Arow (length Ls) - dot_row left left)%R in
      if Rlt_dec 0 d
      then chol_rows n A' (Ls ++ [left ++ [sqrt d] ++ replicate (n - S (length Ls)) 0])
      else None
  end.

(** The factor of a matrix, or [None] when a pivot is not positive. *)
Definition cholesky_R (A : matrix R) : option (matrix R) := chol_rows (length A) A [].

(** A grid of two times and a stream of draws for the examples. *)
Definition time0 : list R := [1; 2].
Definition normal0 (k : nat) : R := INR k.

(** A path of length 6 on which the sums from 4 and from 5 differ. *)
Definition X_sums : list R := [0; 1; 0; 0; 1; 1].

(** A path of length 4, too short for the first sum. *)
Definition X_short : list R := [0; 1; 0; 1].

End RealVocabulary.

(** ** Vocabulary of the further properties *)

Section MoreVocabulary.
Context {F : Type} `{Arith F}.
Local Open Scope float_scope.


(** The sum of [n] draws from the [k]-th on, from zero, in the order of the
    draws. *)
Definition draws_sum (normal : nat → F) (k n : nat) : F :=
  foldl (λ acc j, acc + normal j) (of_int 0) (seq k n).

(** The Brownian list of a grid of [n] times with the generator at [k]: the
    integer 0, then the sums of the first 1, 2, ... draws. *)
Definition prefix_sums (normal : nat → F) (n k : nat) : list (pynum F) :=
  PyInt 0 :: map (λ i, PyFloat (draws_sum normal k (S i))) (seq 0 (n - 1)).

(** The path drawn through the factor [C] from the [n] draws at [k]. *)
Definition projected_path (normal : nat → F) (C : matrix F) (n k : nat) : list F :=
  <[0%nat:=of_int 0]> (np_dot C (normal_vec normal k n)).

(** The factorizer returns, when it returns, a factor with as many rows as
    the matrix it is given, as [np.linalg.cholesky] does. *)
Definition keeps_row_count (cholesky : matrix F → option (matrix F)) : Prop :=
  ∀ M C, cholesky M = Some C → length C = length M.

(** Every path of every batch of a dictionary has [n] entries. *)
Definition paths_have_length (n : nat) (X : dict F) : Prop :=
  Forall (λ kv, Forall (λ Y : list F, length Y = n) kv.2) X.

(** Every batch of a dictionary holds five paths. *)
Definition batches_of_five (X : dict F) : Prop :=
  Forall (λ kv, length kv.2 = 5) X.

End MoreVocabulary.

Section MoreRealVocabulary.
Local Open Scope R_scope.

(** [x < y] on the reals, as a boolean. *)
Definition Rlt_bool (x y : R) : bool := if Rlt_dec x y then true else false.


(** A grid of four times, long enough for the second loop of the
    estimator. *)
Definition time4 : list R := [1; 2; 3; 4].

(** The smaller and the larger of two reals, as the sort orders them. *)
Definition lo (x y : R) : R := if Rlt_dec y x then y else x.
Definition hi (x y : R) : R := if Rlt_dec y x then x else y.

End MoreRealVocabulary.

(** * Lemmas *)

(** ** Lemmas on the estimator *)

Section EstimatorLemmas.
Context {F : Type} `{Arith F}.
Local Open Scope float_scope.

Lemma idx_lookup {A : Type} (l : list A) (i : nat) (x : A) :
  l !! i = Some x → idx l i = Ok x.
Proof. intros E. unfold idx. by rewrite E. Qed.

Lemma idx_in_range (X : list F) (i : nat) :
  i < length X → idx X i = Ok (at_index X i).
Proof.
  intros Hi. destruct (lookup_lt_is_Some_2 X i Hi) as [x E].
  unfold at_index. rewrite E. by apply idx_lookup.
Qed.

Lemma s1_term_in_range (X : list F) (i : nat) :
  4 ≤ i → i < length X → s1_term X i = Ok (second_diff X 2 i).
Proof.
  intros Hlo Hhi. unfold s1_term, second_diff.
  rewrite !idx_in_range by lia. reflexivity.
Qed.

Lemma s2_term_in_range (X : list F) (i : nat) :
  2 ≤ i → i < length X → s2_term X i = Ok (second_diff X 1 i).
Proof.
  intros Hlo Hhi. unfold s2_term, second_diff.
  rewrite !idx_in_range by lia. reflexivity.
Qed.

(** An accumulation loop whose terms are all defined returns the
    accumulator folded over the indices. *)
Lemma accumulate_loop (term : nat → outcome F) (f : nat → F) (ixs : list nat)
    (acc : pynum F) :
  (∀ i, i ∈ ixs → term i = Ok (f i)) →
  for_loop ixs (λ i s, t ← term i; Ok (py_add s t)) acc
    = Ok (foldl (λ s i, py_add s (f i)) acc ixs).
Proof.
  revert acc. induction ixs as [|i ixs IH]; intros acc Hterm; [done|].
  simpl. rewrite (Hterm i) by left. simpl.
  apply IH. intros j Hj. apply Hterm. by right.
Qed.

Lemma to_float_accumulate (f : nat → F) (ixs : list nat) (acc : pynum F) :
  to_float (foldl (λ s i, py_add s (f i)) acc ixs)
    = foldl (λ a i, a + f i) (to_float acc) ixs.
Proof.
  revert acc. induction ixs as [|i ixs IH]; intros acc; [done|].
  simpl. by rewrite IH.
Qed.

(** After at least one iteration the accumulator is a float64. *)
Lemma accumulate_is_float (f : nat → F) (ixs : list nat) (acc : pynum F) :
  ixs ≠ [] →
  ∃ x, foldl (λ s i, py_add s (f i)) acc ixs = PyFloat x.
Proof.
  revert acc. induction ixs as [|i ixs IH]; intros acc Hne; [done|].
  simpl. destruct ixs as [|j ixs'].
  - simpl. eauto.
  - apply IH. discriminate.
Qed.

Lemma elem_of_range (a b i : nat) : i ∈ range a b ↔ a ≤ i ∧ i < b.
Proof. unfold range. rewrite elem_of_seq. lia. Qed.

Lemma hurst_s1_value (X : list F) :
  hurst_s1 X
    = Ok (foldl (λ s i, py_add s (second_diff X 2 i)) (PyInt 0) (range 5 (length X))).
Proof.
  unfold hurst_s1. apply accumulate_loop.
  intros i [Hlo Hhi]%elem_of_range. apply s1_term_in_range; lia.
Qed.

Lemma hurst_s2_value (X : list F) :
  hurst_s2 X
    = Ok (foldl (λ s i, py_add s (second_diff X 1 i)) (PyInt 0) (range 3 (length X))).
Proof.
  unfold hurst_s2. apply accumulate_loop.
  intros i [Hlo Hhi]%elem_of_range. apply s2_term_in_range; lia.
Qed.

Lemma range_nonempty (a b : nat) : a < b → range a b ≠ [].
Proof.
  intros Hab E. assert (Hin : a ∈ range a b) by (apply elem_of_range; lia).
  rewrite E in Hin. by apply elem_of_nil in Hin.
Qed.

Lemma range_empty (a b : nat) : b ≤ a → range a b = [].
Proof. intros Hab. unfold range. by replace (b - a)%nat with 0%nat by lia. Qed.

Lemma py_truediv_float (a : pynum F) (x : F) :
  py_truediv a (PyFloat x) = Ok (to_float a / x).
Proof. by destruct a. Qed.

(** With a path of length at least 4 the second loop runs, [s2] is a
    float64 and the division raises nothing. *)
Lemma hurst_estimate_value (alpha : F) (X : list F) :
  4 ≤ length X →
  hurst_estimate alpha X
    = Ok (flog (sigma 5 (length X) (second_diff X 2)
                / sigma 3 (length X) (second_diff X 1))
          / (of_int 2 * flog (of_int 2)) - alpha).
Proof.
  intros Hlen. unfold hurst_estimate.
  rewrite hurst_s1_value, hurst_s2_value. simpl.
  destruct (accumulate_is_float (second_diff X 1) (range 3 (length X)) (PyInt 0))
    as [x Ex]; [apply range_nonempty; lia|].
  unfold hurst_final. rewrite Ex, py_truediv_float. simpl.
  change x with (to_float (PyFloat x)). rewrite <- Ex.
  rewrite !to_float_accumulate. reflexivity.
Qed.

End EstimatorLemmas.

(** ** Lemmas on matrices *)

Section MatrixLemmas.
Context {F : Type} `{Arith F}.

Lemma square_zeros (n : nat) : square n (np_zeros n n).
Proof.
  split; [apply length_replicate|].
  intros i row [-> _]%lookup_replicate. apply length_replicate.
Qed.

Lemma mat_get_lookup (M : matrix F) (i j : nat) (v : F) :
  mat_lookup M i j = Some v → mat_get M i j = Ok v.
Proof.
  unfold mat_lookup, mat_get, idx. destruct (M !! i) as [row|]; [|done].
  simpl. intros E. by rewrite E.
Qed.

Lemma mat_lookup_outside (n : nat) (M : matrix F) (i j : nat) :
  square n M → n ≤ i ∨ n ≤ j → mat_lookup M i j = None.
Proof.
  intros [Hlen Hrows] Hout. unfold mat_lookup.
  destruct (M !! i) as [row|] eqn:Ei; [|done]. simpl.
  apply lookup_ge_None. rewrite (Hrows i row Ei).
  destruct Hout as [Hi|Hj]; [|done].
  apply lookup_lt_Some in Ei. lia.
Qed.

(** Writing one entry: the array keeps its shape, the entry holds the value
    written and every other entry is unchanged. *)
Lemma mat_set_spec (n : nat) (M : matrix F) (i j : nat) (v : F) :
  square n M → i < n → j < n →
  ∃ M', mat_set M i j v = Ok M' ∧ square n M' ∧
        mat_lookup M' i j = Some v ∧
        ∀ i' j', (i', j') ≠ (i, j) → mat_lookup M' i' j' = mat_lookup M i' j'.
Proof.
  intros [Hlen Hrows] Hi Hj.
  destruct (lookup_lt_is_Some_2 M i) as [row Erow]; [lia|].
  pose proof (Hrows i row Erow) as Hrow.
  exists (<[i:=<[j:=v]> row]> M). repeat split.
  - unfold mat_set, idx, setitem. rewrite Erow. simpl.
    rewrite decide_True by lia. simpl. by rewrite decide_True by lia.
  - by rewrite length_insert.
  - intros i' row'. destruct (decide (i' = i)) as [->|Hne].
    + rewrite list_lookup_insert_eq by lia. intros [= <-].
      by rewrite length_insert.
    + rewrite list_lookup_insert_ne by done. apply Hrows.
  - unfold mat_lookup. rewrite list_lookup_insert_eq by lia. simpl.
    apply list_lookup_insert_eq. lia.
  - intros i' j' Hne. unfold mat_lookup.
    destruct (decide (i' = i)) as [->|Hi'].
    + rewrite list_lookup_insert_eq by lia. rewrite Erow. simpl.
      apply list_lookup_insert_ne. congruence.
    + by rewrite list_lookup_insert_ne.
Qed.

End MatrixLemmas.

(** ** The assembly loops *)

Section AssemblyLemmas.
Context {F : Type} `{Arith F}.
Variable time : list F.
Variable entry : F → F → F.

(** The inner-loop body writes the same value at [(t, s)] and at [(s, t)]
    and nothing else. *)
Lemma cov_body_spec (M : matrix F) (t s : nat) :
  square (N time) M → t < N time → s < N time →
  ∃ M', cov_body time entry t s M = Ok M' ∧ square (N time) M' ∧
        mat_lookup M' t s = Some (assigned time entry t s) ∧
        mat_lookup M' s t = Some (assigned time entry t s) ∧
        ∀ i j, (i, j) ≠ (t, s) → (i, j) ≠ (s, t) →
               mat_lookup M' i j = mat_lookup M i j.
Proof.
  intros Hsq Ht Hs. unfold N in *.
  destruct (mat_set_spec _ M t s (assigned time entry t s) Hsq Ht Hs)
    as (M1 & E1 & Hsq1 & Hts1 & Hother1).
  destruct (mat_set_spec _ M1 s t (assigned time entry t s) Hsq1 Hs Ht)
    as (M2 & E2 & Hsq2 & Hst2 & Hother2).
  exists M2. repeat split; try done.
  - unfold cov_body. rewrite !idx_in_range by done. simpl.
    fold (assigned time entry t s). rewrite E1. simpl.
    rewrite (mat_get_lookup _ _ _ _ Hts1). simpl. exact E2.
  - apply Hsq2.
  - apply Hsq2.
  - destruct (decide (t = s)) as [->|Hne]; [exact Hst2|].
    rewrite Hother2 by congruence. exact Hts1.
  - intros i j Hne1 Hne2. rewrite Hother2 by done. by apply Hother1.
Qed.

Lemma filled_row_done (t : nat) (M : matrix F) :
  filled time entry t (S t) M → filled time entry (S t) 0 M.
Proof.
  intros [Hsq Hfill]. split; [done|].
  intros i j Hi Hj Hpos. apply Hfill; lia.
Qed.

Lemma cov_row_spec (n a t : nat) (M : matrix F) :
  t < N time → a + n ≤ N time → a ≤ S t → filled time entry t a M →
  ∃ M', cov_row time (seq a n) entry t M = Ok M' ∧ filled time entry t ((a + n) `min` S t) M'.
Proof.
  revert a M. induction n as [|n IH]; intros a M Ht Hn Ha Hfill.
  - exists M. split; [done|]. by replace ((a + 0) `min` S t) with a by lia.
  - simpl. destruct (decide (t < a)) as [Hbreak|Hgo].
    + exists M. split; [done|]. by replace ((a + S n) `min` S t) with a by lia.
    + destruct Hfill as [Hsq Hfill].
      destruct (cov_body_spec M t a Hsq Ht) as (M1 & E1 & Hsq1 & Hta & Hat & Hother);
        [lia|].
      rewrite E1. simpl.
      destruct (IH (S a) M1) as (M' & E' & Hfill'); [done|lia|lia| |].
      * split; [done|]. intros i j Hi Hj Hpos.
        destruct (decide ((i, j) = (t, a))) as [[= -> ->]|Hne1].
        { by replace (t `max` a) with t by lia; replace (t `min` a) with a by lia. }
        destruct (decide ((i, j) = (a, t))) as [[= -> ->]|Hne2].
        { by replace (a `max` t) with t by lia; replace (a `min` t) with a by lia. }
        rewrite Hother by done. apply Hfill; [done|done|].
        destruct Hpos as [Hlt|[Hmax Hmin]]; [by left|right].
        split; [done|].
        assert (i `min` j ≠ a); [|lia].
        intros Emin. destruct (decide (i ≤ j)).
        { apply Hne2. f_equal; lia. }
        { apply Hne1. f_equal; lia. }
      * exists M'. split; [done|].
        by replace ((a + S n) `min` S t) with ((S a + n) `min` S t) by lia.
Qed.

Lemma assemble_loop_spec (n t : nat) (M : matrix F) :
  t + n ≤ N time → filled time entry t 0 M →
  ∃ M', for_loop (seq t n) (λ t M, cov_row time (seq 0 (N time)) entry t M) M = Ok M'
        ∧ filled time entry (t + n) 0 M'.
Proof.
  revert t M. induction n as [|n IH]; intros t M Hn Hfill.
  - exists M. split; [done|]. by replace (t + 0) with t by lia.
  - cbn [seq for_loop].
    destruct (cov_row_spec (N time) 0 t M) as (M1 & E1 & Hfill1); [lia|lia|lia|done|].
    rewrite E1. simpl.
    replace ((0 + N time) `min` S t) with (S t) in Hfill1 by lia.
    destruct (IH (S t) M1) as (M' & E' & Hfill'); [lia|by apply filled_row_done|].
    exists M'. split; [done|]. by replace (t + S n) with (S t + n) by lia.
Qed.

(** The assembly always returns: a square array in which every position
    holds the value computed for its (larger index, smaller index) pair. *)
Lemma assemble_spec :
  ∃ M, assemble time entry = Ok M ∧ square (N time) M ∧
       ∀ i j, i < N time → j < N time →
         mat_lookup M i j = Some (assigned time entry (i `max` j) (i `min` j)).
Proof.
  destruct (assemble_loop_spec (N time) 0 (np_zeros (N time) (N time)))
    as (M & E & Hsq & Hfill); [lia| |].
  - split; [apply square_zeros|]. intros i j _ _ Hpos. lia.
  - exists M. split; [|split; [done|]].
    + unfold assemble, range. by replace (N time - 0) with (N time) by lia.
    + intros i j Hi Hj. apply Hfill; [done|done|]. left. simpl. lia.
Qed.

(** The assembled array is symmetric: the two positions [(i, j)] and
    [(j, i)] hold the same value (and are both absent out of range). *)
Lemma assemble_symmetric (M : matrix F) (i j : nat) :
  assemble time entry = Ok M → mat_lookup M i j = mat_lookup M j i.
Proof.
  intros E. destruct assemble_spec as (M' & E' & Hsq & Hval).
  rewrite E in E'. injection E' as <-.
  destruct (decide (i < N time ∧ j < N time)) as [[Hi Hj]|Hout].
  - rewrite !Hval by done. by rewrite Nat.max_comm, Nat.min_comm.
  - rewrite !(mat_lookup_outside (N time)); (done || lia).
Qed.

End AssemblyLemmas.

(** ** Lemmas on sampling *)

Section SamplingLemmas.
Context {F : Type} `{Arith F}.
Local Open Scope float_scope.

(** A property that holds before a loop and is kept by every iteration that
    returns holds of the state the loop returns. *)
Lemma for_loop_invariant {I S : Type} (P : S → Prop) (ixs : list I)
    (body : I → S → outcome S) (s s' : S) :
  (∀ i s1 s2, P s1 → body i s1 = Ok s2 → P s2) →
  P s → for_loop ixs body s = Ok s' → P s'.
Proof.
  intros Hbody. revert s. induction ixs as [|i ixs IH]; intros s Hs.
  - simpl. by intros [= <-].
  - simpl. destruct (body i s) as [s1|e] eqn:E; [|done]. simpl.
    apply IH. by apply (Hbody i s).
Qed.

Variable time : list F.
Variable normal : nat → F.

Lemma bm_loop_spec (k n a : nat) (st : list (pynum F) * nat) :
  1 ≤ a → bm_inv normal k a st →
  ∃ st', for_loop (seq a n)
           (λ i st, w ← idx st.1 (i - 1); Ok (st.1 ++ [py_add w (normal st.2)], S st.2)) st
         = Ok st' ∧ bm_inv normal k (a + n) st'.
Proof.
  revert a st. induction n as [|n IH]; intros a [W k'] Ha Hinv.
  - exists (W, k'). split; [done|]. by replace (a + 0)%nat with a by lia.
  - destruct Hinv as (Hlen & Hk & H0 & Hstep). simpl in *.
    destruct (lookup_lt_is_Some_2 W (a - 1)) as [w Ew]; [lia|].
    rewrite (idx_lookup _ _ _ Ew). simpl.
    destruct (IH (S a) (W ++ [py_add w (normal k')], S k')) as (st' & E' & Hinv'); [lia| |].
    + repeat split; simpl.
      * rewrite length_app. simpl. lia.
      * lia.
      * rewrite lookup_app_l by lia. done.
      * intros j Hj1 Hj2. destruct (decide (j = a)) as [->|Hne].
        -- exists w. split.
           ++ rewrite lookup_app_l by lia. done.
           ++ rewrite lookup_app_r by lia.
              replace (a - length W)%nat with 0%nat by lia. simpl. by rewrite Hk.
        -- destruct (Hstep j) as (w' & E1 & E2); [lia|lia|].
           exists w'. rewrite !lookup_app_l by lia. done.
    + exists st'. split; [done|].
      by replace (a + S n)%nat with (S a + n)%nat by lia.
Qed.

Lemma brownian_path_spec (k : nat) :
  ∃ W, brownian_path time normal k = Ok (W, (k + (N time - 1))%nat) ∧
       bm_inv normal k (1 + (N time - 1)) (W, (k + (N time - 1))%nat).
Proof.
  destruct (bm_loop_spec k (N time - 1) 1 ([PyInt 0], k)) as ([W k'] & E & Hinv);
    [lia| |].
  - split; [done|]. split; [simpl; lia|]. split; [done|].
    intros j Hj1 Hj2. lia.
  - exists W. pose proof Hinv as (_ & Hk & _). simpl in Hk.
    replace (k + (N time - 1 - 0))%nat with (k + (N time - 1))%nat in Hk by lia.
    subst k'. split; [exact E|exact Hinv].
Qed.

Lemma length_np_dot (C : matrix F) (z : list F) : length (np_dot C z) = length C.
Proof. unfold np_dot. apply length_map. Qed.

Lemma np_dot_lookup (C : matrix F) (z row : list F) (i : nat) :
  C !! i = Some row → np_dot C z !! i = Some (dot_row row z).
Proof. intros E. unfold np_dot. by rewrite list_lookup_fmap, E. Qed.

(** With a factor that has a first row the draw returns: the projected
    vector with index 0 overwritten, and the generator advanced by [N]. *)
Lemma draw_path_ok (C : matrix F) (k : nat) :
  C ≠ [] →
  draw_path time normal C k
    = Ok (<[0%nat:=of_int 0]> (np_dot C (normal_vec normal k (N time))),
          (k + N time)%nat).
Proof.
  intros HC. unfold draw_path, setitem.
  rewrite decide_True; [done|]. rewrite length_np_dot.
  destruct C; [done|simpl; lia].
Qed.

Lemma draw_path_empty (k : nat) :
  draw_path time normal [] k = Raise IndexError.
Proof. reflexivity. Qed.

(** Every path a draw returns starts with zero. *)
Lemma draw_path_zero (C : matrix F) (k : nat) (r : list F * nat) :
  draw_path time normal C k = Ok r → r.1 !! 0%nat = Some (of_int 0).
Proof.
  destruct C as [|row C].
  - by rewrite draw_path_empty.
  - rewrite draw_path_ok by done. intros [= <-]. simpl. done.
Qed.

Lemma draw_batch_zero (C : matrix F) (k : nat) (r : list (list F) * nat) :
  draw_batch time normal C k = Ok r →
  Forall (λ Y, Y !! 0%nat = Some (of_int 0)) r.1.
Proof.
  unfold draw_batch.
  apply (for_loop_invariant (λ st, Forall (λ Y, Y !! 0%nat = Some (of_int 0)) st.1)).
  - intros i [Ys k1] s2 HP. simpl.
    destruct (draw_path time normal C k1) as [r1|e] eqn:E; [|done].
    simpl. intros [= <-]. simpl. apply Forall_app. split; [done|].
    apply Forall_singleton. by apply (draw_path_zero C k1).
  - by apply Forall_nil.
Qed.

Lemma draw_batch_ok (C : matrix F) (k : nat) :
  C ≠ [] →
  ∃ Ys k', draw_batch time normal C k = Ok (Ys, k') ∧ length Ys = 5.
Proof.
  intros HC. unfold draw_batch, range. simpl.
  repeat (rewrite draw_path_ok by done; simpl).
  eexists _, _. split; reflexivity.
Qed.

End SamplingLemmas.

(** ** Lemmas on the per-alpha loop *)

Section CellLemmas.
Context {F : Type} `{Arith F} `{EqDecision F}.
Variable time : list F.
Variable normal : nat → F.
Variable cholesky : matrix F → option (matrix F).
Variable entry : F → F → F → F.

Lemma gen_unit_fails (alpha : F) (k : nat) :
  factorization_fails time cholesky entry alpha →
  gen_unit time normal cholesky (entry alpha) k = Raise LinAlgError.
Proof.
  intros (M & EM & EC). unfold gen_unit. rewrite EM. simpl. by rewrite EC.
Qed.

Lemma gen_unit_succeeds (alpha : F) (k : nat) :
  factorization_succeeds time cholesky entry alpha →
  ∃ Ys k', gen_unit time normal cholesky (entry alpha) k = Ok (Ys, k') ∧ length Ys = 5.
Proof.
  intros (M & C & EM & EC & HC). unfold gen_unit. rewrite EM. simpl.
  rewrite EC. simpl. by apply draw_batch_ok.
Qed.

Lemma gen_unit_zero (alpha : F) (k : nat) (r : list (list F) * nat) :
  gen_unit time normal cholesky (entry alpha) k = Ok r →
  Forall (λ Y, Y !! 0 = Some (of_int 0)) r.1.
Proof.
  unfold gen_unit. destruct (assemble time (entry alpha)) as [M|e]; [|done].
  simpl. destruct (cholesky M) as [C|]; [|done]. simpl.
  apply draw_batch_zero.
Qed.

(** The loop over a concatenation: when the first part ends normally the
    second part runs from where it ended; when it raises, the loop is over. *)
Lemma gen_cell_app (alphas1 alphas2 : list F) (X : dict F) (k : nat) :
  gen_cell time normal cholesky entry (alphas1 ++ alphas2) X k
    = match gen_cell time normal cholesky entry alphas1 X k with
      | (X1, Ok k1) => gen_cell time normal cholesky entry alphas2 X1 k1
      | (X1, Raise e) => (X1, Raise e)
      end.
Proof.
  revert X k. induction alphas1 as [|alpha alphas1 IH]; intros X k; [done|].
  simpl. destruct (gen_unit time normal cholesky (entry alpha) k) as [[Ys k']|e];
    [apply IH|done].
Qed.

Lemma dict_get_set_eq (X : dict F) (key : F) (v : list (list F)) :
  dict_get (dict_set X key v) key = Ok v.
Proof.
  induction X as [|[key' v'] X IH]; simpl.
  - by rewrite decide_True.
  - destruct (decide (key' = key)) as [->|Hne]; simpl.
    + by rewrite decide_True.
    + by rewrite decide_False.
Qed.

Lemma dict_get_set_ne (X : dict F) (key key2 : F) (v : list (list F)) :
  key ≠ key2 → dict_get (dict_set X key v) key2 = dict_get X key2.
Proof.
  intros Hne. induction X as [|[key' v'] X IH]; simpl.
  - by rewrite decide_False.
  - destruct (decide (key' = key)) as [->|Hne']; simpl.
    + by rewrite !decide_False.
    + destruct (decide (key' = key2)); done.
Qed.

Lemma dict_set_values (P : list (list F) → Prop) (X : dict F) (key : F)
    (v : list (list F)) :
  P v → Forall (λ kv, P kv.2) X → Forall (λ kv, P kv.2) (dict_set X key v).
Proof.
  intros Hv. induction 1 as [|[key' v'] X Hhd Htl IH]; simpl.
  - by apply Forall_singleton.
  - destruct (decide (key' = key)); apply Forall_cons; done.
Qed.

(** Every batch in the dictionary the loop leaves holds only paths that
    start with zero, however the loop ended. *)
Lemma gen_cell_zero (alphas : list F) (X : dict F) (k : nat) :
  Forall (λ kv, Forall (λ Y, Y !! 0 = Some (of_int 0)) kv.2) X →
  Forall (λ kv, Forall (λ Y, Y !! 0 = Some (of_int 0)) kv.2)
    (gen_cell time normal cholesky entry alphas X k).1.
Proof.
  revert X k. induction alphas as [|alpha alphas IH]; intros X k HX; [done|].
  simpl. destruct (gen_unit time normal cholesky (entry alpha) k) as [[Ys k']|e] eqn:E;
    [|done].
  apply IH.
  apply (dict_set_values (Forall (λ Y, Y !! 0 = Some (of_int 0)))); [|done].
  apply (gen_unit_zero alpha k (Ys, k') E).
Qed.

(** When every factorization succeeds the loop ends normally and every
    [alpha] of the list has been processed. *)
Lemma gen_cell_all_succeed (alphas : list F) (X : dict F) (k : nat) :
  Forall (factorization_succeeds time cholesky entry) alphas →
  ∃ X' k', gen_cell time normal cholesky entry alphas X k = (X', Ok k') ∧
           (∀ alpha, processed X alpha ∨ alpha ∈ alphas → processed X' alpha).
Proof.
  intros Hall. revert X k.
  induction Hall as [|alpha alphas Hok Hall IH]; intros X k.
  - exists X, k. split; [done|]. intros alpha [HX|Hin]; [done|].
    by apply elem_of_nil in Hin.
  - destruct (gen_unit_succeeds alpha k Hok) as (Ys & k1 & E & _).
    simpl. rewrite E.
    destruct (IH (dict_set X alpha Ys) k1) as (X' & k' & E' & Hproc).
    exists X', k'. split; [done|]. intros a Ha. apply Hproc.
    destruct (decide (alpha = a)) as [->|Hne].
    + left. exists Ys. apply dict_get_set_eq.
    + destruct Ha as [[batch HX]|Hin].
      * left. exists batch. by rewrite dict_get_set_ne.
      * right. apply elem_of_cons in Hin as [->|Hin]; done.
Qed.

(** Only the values of the list are added to the dictionary. *)
Lemma gen_cell_processed (alphas : list F) (X : dict F) (k : nat) (a : F) :
  processed (gen_cell time normal cholesky entry alphas X k).1 a →
  processed X a ∨ a ∈ alphas.
Proof.
  revert X k. induction alphas as [|alpha alphas IH]; intros X k; [by left|].
  simpl. destruct (gen_unit time normal cholesky (entry alpha) k) as [[Ys k']|e];
    [|by left].
  intros [HX|Hin]%IH; [|right; by right].
  destruct (decide (alpha = a)) as [->|Hne]; [right; by left|].
  left. destruct HX as [batch HX]. exists batch. by rewrite dict_get_set_ne in HX.
Qed.

(** The first failing factorization ends the loop with [LinAlgError]: the
    dictionary is the one the earlier iterations left, whatever values
    follow in the list. *)
Lemma gen_cell_first_failure (alphas1 alphas2 : list F) (alpha : F) (X : dict F)
    (k : nat) :
  Forall (factorization_succeeds time cholesky entry) alphas1 → factorization_fails time cholesky entry alpha →
  ∃ X1 k1, gen_cell time normal cholesky entry alphas1 X k = (X1, Ok k1) ∧
           gen_cell time normal cholesky entry (alphas1 ++ alpha :: alphas2) X k
             = (X1, Raise LinAlgError) ∧
           ∀ a, processed X1 a → processed X a ∨ a ∈ alphas1.
Proof.
  intros Hok Hfail.
  destruct (gen_cell_all_succeed alphas1 X k Hok) as (X1 & k1 & E1 & _).
  exists X1, k1. split; [done|]. split.
  - rewrite gen_cell_app, E1. simpl. by rewrite gen_unit_fails.
  - intros a Ha. apply (gen_cell_processed alphas1 X k a). by rewrite E1.
Qed.

End CellLemmas.

(** ** The estimator's report *)

Section Report.
Context {F : Type} `{Arith F}.
Local Open Scope float_scope.

(** [np.mean] and [np.std] on a list. *)
Variables np_mean np_std : list F → F.

Lemma hurst_estimate_short (alpha : F) (X : list F) :
  length X ≤ 3 → hurst_estimate alpha X = Raise ZeroDivisionError.
Proof.
  intros Hlen. unfold hurst_estimate.
  rewrite hurst_s1_value, hurst_s2_value, !range_empty by lia. reflexivity.
Qed.

Lemma hurst_L_loop (alpha : F) (Xs : list (list F)) (L : list F) :
  Forall (λ X, 4 ≤ length X) Xs →
  for_loop Xs (λ X L, e ← hurst_estimate alpha X; Ok (L ++ [e])) L
    = Ok (L ++ map (estimate_value alpha) Xs).
Proof.
  intros Hall. revert L. induction Hall as [|X Xs HX Hall IH]; intros L.
  - simpl. by rewrite app_nil_r.
  - simpl. rewrite hurst_estimate_value by done. simpl.
    rewrite IH. by rewrite <- app_assoc.
Qed.

Lemma hurst_L_raises (alpha : F) (Xs1 Xs2 : list (list F)) (X : list F) (L : list F) :
  Forall (λ X, 4 ≤ length X) Xs1 → length X ≤ 3 →
  for_loop (Xs1 ++ X :: Xs2) (λ X L, e ← hurst_estimate alpha X; Ok (L ++ [e])) L
    = Raise ZeroDivisionError.
Proof.
  intros Hall HX. revert L. induction Hall as [|X1 Xs1 HX1 Hall IH]; intros L.
  - simpl. by rewrite hurst_estimate_short.
  - simpl. rewrite hurst_estimate_value by done. simpl. apply IH.
Qed.

(** The estimator cell appends a value for every path of length at least 4
    and raises on a path of length at most 3, whatever the arithmetic. *)
Lemma hurst_L_every_path (alpha : F) :
  (∀ Xs, Forall (λ X, 4 ≤ length X) Xs →
     hurst_L alpha Xs = Ok (map (estimate_value alpha) Xs) ∧
     hurst_report np_mean np_std alpha Xs
       = Ok (np_mean (map (estimate_value alpha) Xs),
             np_std (map (estimate_value alpha) Xs))) ∧
  (∀ Xs1 X Xs2, Forall (λ X, 4 ≤ length X) Xs1 → length X ≤ 3 →
     hurst_L alpha (Xs1 ++ X :: Xs2) = Raise ZeroDivisionError ∧
     hurst_report np_mean np_std alpha (Xs1 ++ X :: Xs2) = Raise ZeroDivisionError).
Proof.
  split.
  - intros Xs Hall.
    assert (E : hurst_L alpha Xs = Ok (map (estimate_value alpha) Xs)).
    { unfold hurst_L. by rewrite hurst_L_loop. }
    split; [exact E|]. unfold hurst_report. by rewrite E.
  - intros Xs1 X Xs2 Hall HX.
    assert (E : hurst_L alpha (Xs1 ++ X :: Xs2) = Raise ZeroDivisionError).
    { unfold hurst_L. by apply hurst_L_raises. }
    split; [exact E|]. unfold hurst_report. by rewrite E.
Qed.

End Report.

(** ** Facts of real arithmetic *)

Section RealFacts.
Local Open Scope R_scope.

Lemma Rpow_0_r (x : R) : Rpow x 0 = 1.
Proof. unfold Rpow. by destruct (Req_dec_T 0 0). Qed.

Lemma Rpow_0_l (y : R) : y ≠ 0 → Rpow 0 y = 0.
Proof.
  intros Hy. unfold Rpow. destruct (Req_dec_T y 0); [done|].
  by destruct (Req_dec_T 0 0).
Qed.

Lemma Rpow_pos (x y : R) : 0 < x → y ≠ 0 → Rpow x y = Rpower x y.
Proof.
  intros Hx Hy. unfold Rpow. destruct (Req_dec_T y 0); [done|].
  destruct (Req_dec_T x 0); [lra|done].
Qed.

Lemma Rpow_nonneg (x y : R) : 0 <= Rpow x y.
Proof.
  unfold Rpow. destruct (Req_dec_T y 0); [lra|].
  destruct (Req_dec_T x 0); [lra|].
  unfold Rpower. left. apply exp_pos.
Qed.

Lemma Rpow_1 (x : R) : 0 <= x → Rpow x 1 = x.
Proof.
  intros [Hx|<-].
  - rewrite Rpow_pos by lra. by apply Rpower_1.
  - apply Rpow_0_l. lra.
Qed.

Lemma Rpow_2 (x : R) : 0 <= x → Rpow x 2 = x * x.
Proof.
  intros [Hx|<-].
  - rewrite Rpow_pos by lra. replace 2 with (INR 2) by (simpl; lra).
    rewrite Rpower_pow by done. simpl. lra.
  - rewrite Rpow_0_l by lra. lra.
Qed.

Lemma Rpow_abs_2 (x : R) : Rpow (Rabs x) 2 = x * x.
Proof.
  rewrite Rpow_2 by apply Rabs_pos.
  unfold Rabs. destruct (Rcase_abs x); lra.
Qed.

(** With the literal 0.5 the kernel of two non-negative times is their
    minimum. *)
Lemma fbm_entry_half (tt ts : R) :
  0 <= tt → 0 <= ts → fbm_entry half tt ts = Rmin tt ts.
Proof.
  intros Ht Hs. unfold fbm_entry. simpl.
  replace (2 * / 2) with 1 by lra.
  rewrite !Rpow_1 by (done || apply Rabs_pos).
  unfold Rabs, Rmin. destruct (Rcase_abs (tt - ts)), (Rle_dec tt ts); lra.
Qed.

(** On the diagonal the kernel is non-negative. *)
Lemma fbm_entry_diag (alpha t : R) : 0 <= fbm_entry alpha t t.
Proof.
  unfold fbm_entry. simpl.
  replace (t - t) with 0 by lra. rewrite Rabs_R0.
  pose proof (Rpow_nonneg t (2 * alpha)) as Hp.
  destruct (Req_dec_T (2 * alpha) 0) as [E|Hne].
  - rewrite E, !Rpow_0_r. lra.
  - rewrite (Rpow_0_l _ Hne). lra.
Qed.

End RealFacts.

(** Case analysis on the first comparison of reals in the goal. *)
Ltac real_case :=
  match goal with
  | |- context [Rlt_dec ?a ?b] => destruct (Rlt_dec a b)
  | |- context [Req_dec_T ?a ?b] => destruct (Req_dec_T a b)
  end.

(** ** The estimator on finite paths, with the special values *)

Section EstimatorSpecialValues.
Local Open Scope R_scope.

Lemma at_index_Fin (xs : list R) (i : nat) :
  at_index (map Fin xs) i = Fin (at_index xs i).
Proof.
  unfold at_index. rewrite list_lookup_fmap. by destruct (xs !! i).
Qed.

Lemma xpow_Fin_2 (a : R) : 0 <= a → xpow (Fin a) (Fin 2) = Fin (Rpow a 2).
Proof.
  intros Ha. unfold xpow, Rpow.
  destruct (Req_dec_T 2 0); [lra|].
  destruct (Rlt_dec 0 a), (Req_dec_T a 0); try lra; try done.
  destruct (Rlt_dec 0 2); [done|lra].
Qed.

(** On a finite path the squared second difference is the finite one. *)
Lemma second_diff_Fin (xs : list R) (lag i : nat) :
  second_diff (map Fin xs) lag i = Fin (second_diff xs lag i).
Proof.
  unfold second_diff. rewrite !at_index_Fin.
  cbn [fpow fabs fadd fsub fmul of_int xreal_arith R_arith xsub xadd xneg xmul xabs].
  rewrite xpow_Fin_2 by apply Rabs_pos.
  reflexivity.
Qed.

Lemma sigma_Fin (a b : nat) (f : nat → xreal) (g : nat → R) :
  (∀ i, f i = Fin (g i)) → sigma a b f = Fin (sigma a b g).
Proof.
  intros Hfg. unfold sigma.
  change (of_int 0) with (Fin (of_int 0)) at 1.
  generalize (of_int 0 : R). induction (range a b) as [|i l IH]; intros acc; [done|].
  simpl. rewrite Hfg. simpl. apply IH.
Qed.

Lemma sigma_nonneg (a b : nat) (g : nat → R) :
  (∀ i, 0 <= g i) → 0 <= sigma a b g.
Proof.
  intros Hg. unfold sigma.
  assert (H0 : 0 <= (of_int 0 : R)) by (simpl; lra).
  revert H0. generalize (of_int 0 : R).
  induction (range a b) as [|i l IH]; intros acc Hacc; [done|].
  simpl. apply IH. pose proof (Hg i). lra.
Qed.

Lemma second_diff_nonneg (xs : list R) (lag i : nat) : 0 <= second_diff xs lag i.
Proof. unfold second_diff. apply Rpow_nonneg. Qed.

Lemma S1_nonneg (xs : list R) : 0 <= S1 xs.
Proof. apply sigma_nonneg, second_diff_nonneg. Qed.

Lemma S2_nonneg (xs : list R) : 0 <= S2 xs.
Proof. apply sigma_nonneg, second_diff_nonneg. Qed.

Lemma S1_short (xs : list R) : (length xs ≤ 5)%nat → S1 xs = 0.
Proof. intros Hlen. unfold S1, sigma. by rewrite range_empty. Qed.

(** [log(s1/s2)/(2·log 2) − a] on two finite non-negative sums. *)
Lemma final_step_Fin (s1 s2 a : R) :
  0 <= s1 → 0 <= s2 →
  (flog (Fin s1 / Fin s2) / (of_int 2 * flog (of_int 2)) - Fin a)%fl
    = estimate_of_sums s1 s2 a.
Proof.
  intros H1 H2. pose proof ln_lt_2 as Hln. unfold estimate_of_sums.
  assert (Hq : s2 ≠ 0 → s1 ≠ 0 → 0 < s1 / s2).
  { intros. apply Rdiv_lt_0_compat; lra. }
  assert (Hz : s1 = 0 → s1 / s2 = 0) by (intros ->; lra).
  repeat (cbn [fdiv flog fmul fsub of_int xreal_arith
               xdiv xsign xinf xlog xmul xsub xadd xneg];
          real_case; try (exfalso; lra)); try reflexivity;
    exfalso; (apply Hq in n; lra) || (apply Hz in e; lra) || lra.
Qed.

(** The value appended for a finite path, from its two sums. *)
Lemma estimate_value_Fin (a : R) (xs : list R) :
  estimate_value (Fin a) (map Fin xs) = estimate_of_sums (S1 xs) (S2 xs) a.
Proof.
  unfold estimate_value. rewrite length_map.
  rewrite (sigma_Fin 5 _ _ (second_diff xs 2)) by apply second_diff_Fin.
  rewrite (sigma_Fin 3 _ _ (second_diff xs 1)) by apply second_diff_Fin.
  apply final_step_Fin; [apply S1_nonneg|apply S2_nonneg].
Qed.

Lemma estimate_of_sums_degenerate (s1 s2 a : R) :
  s1 = 0 ∨ s2 = 0 → not_finite (estimate_of_sums s1 s2 a).
Proof.
  unfold estimate_of_sums, not_finite.
  intros [->| ->]; repeat destruct (Req_dec_T _ _); (done || lra || tauto).
Qed.

End EstimatorSpecialValues.

(** ** A concrete factorizer and a concrete run *)

Section Examples.
Local Open Scope R_scope.

(** On a grid of two times the loops leave the array with the lower-left
    value mirrored to the upper right. *)
Lemma assemble_two_times {F : Type} `{Arith F} (t0 t1 : F) (entry : F → F → F) :
  assemble [t0; t1] entry
    = Ok [[entry t0 t0; entry t1 t0]; [entry t1 t0; entry t1 t1]].
Proof. reflexivity. Qed.

Lemma cholesky_R_regular : cholesky_R [[1; 1]; [1; 2]] = Some [[1; 0]; [1; 1]].
Proof.
  unfold cholesky_R. cbn -[Rlt_dec sqrt].
  replace (1 - 0) with 1 by lra. rewrite sqrt_1.
  replace (2 - (0 + 1 / 1 * (1 / 1))) with 1 by lra. rewrite sqrt_1.
  replace (1 / 1) with 1 by lra.
  repeat real_case; (done || lra).
Qed.

Lemma cholesky_R_singular : cholesky_R [[1; 2]; [2; 4]] = None.
Proof.
  unfold cholesky_R. cbn -[Rlt_dec sqrt].
  replace (1 - 0) with 1 by lra. rewrite sqrt_1.
  repeat real_case; (done || lra).
Qed.

Lemma fbm_mat_cov_one : fbm_mat_cov time0 1 = Ok [[1; 2]; [2; 4]].
Proof.
  unfold fbm_mat_cov, time0. rewrite assemble_two_times.
  unfold fbm_entry. simpl. replace (2 * 1) with 2 by lra.
  rewrite !Rpow_abs_2, !Rpow_2 by lra.
  repeat f_equal; lra.
Qed.

Lemma fbm_mat_cov_half : fbm_mat_cov time0 half = Ok [[1; 1]; [1; 2]].
Proof.
  unfold fbm_mat_cov, time0. rewrite assemble_two_times.
  rewrite !fbm_entry_half by lra.
  unfold Rmin. repeat f_equal; destruct (Rle_dec _ _); lra.
Qed.

Lemma factorization_fails_one : factorization_fails time0 cholesky_R fbm_entry 1.
Proof.
  exists [[1; 2]; [2; 4]]. split; [apply fbm_mat_cov_one|apply cholesky_R_singular].
Qed.

Lemma factorization_succeeds_half :
  factorization_succeeds time0 cholesky_R fbm_entry half.
Proof.
  exists [[1; 1]; [1; 2]], [[1; 0]; [1; 1]].
  split; [apply fbm_mat_cov_half|]. split; [apply cholesky_R_regular|done].
Qed.

(** A run in which the factorization succeeds stores a batch. *)
Lemma fbm_cell_stores_batch :
  ∃ X k', fbm_cell time0 normal0 cholesky_R [half] 0 = (X, Ok k') ∧ processed X half.
Proof.
  destruct (gen_cell_all_succeed time0 normal0 cholesky_R fbm_entry [half] [] 0%nat)
    as (X & k' & E & Hproc).
  - apply Forall_singleton, factorization_succeeds_half.
  - exists X, k'. split; [exact E|]. apply Hproc. right. by left.
Qed.

End Examples.

(** ** The entries of an assembled matrix *)

(** When the assigned expression does not depend on the order of its two
    times, every position of the grid holds the expression of its own two
    times: above the diagonal the array holds the value computed for the
    mirrored position. *)
Lemma assemble_lookup {F : Type} `{Arith F} (time : list F) (entry : F → F → F)
    (M : matrix F) (i j : nat) (ti tj : F) :
  (∀ x y, entry x y = entry y x) →
  assemble time entry = Ok M →
  time !! i = Some ti → time !! j = Some tj →
  mat_lookup M i j = Some (entry ti tj).
Proof.
  intros Hsym E Ei Ej.
  destruct (assemble_spec time entry) as (M' & E' & _ & Hval).
  rewrite E in E'. injection E' as <-.
  pose proof (lookup_lt_Some _ _ _ Ei) as Hi.
  pose proof (lookup_lt_Some _ _ _ Ej) as Hj.
  rewrite (Hval i j Hi Hj). f_equal. unfold assigned, at_index.
  destruct (decide (i ≤ j)) as [Hle|Hgt].
  - replace (i `max` j) with j by lia. replace (i `min` j) with i by lia.
    rewrite Ei, Ej. simpl. apply Hsym.
  - replace (i `max` j) with i by lia. replace (i `min` j) with j by lia.
    rewrite Ei, Ej. reflexivity.
Qed.

Lemma fbm_mat_cov_returns {F : Type} `{Arith F} (time : list F) (alpha : F) :
  ∃ M, fbm_mat_cov time alpha = Ok M.
Proof.
  destruct (assemble_spec time (fbm_entry alpha)) as (M & E & _). by exists M.
Qed.

(** ** The fBm kernel with the special values *)

Section KernelSpecialValues.
Local Open Scope R_scope.

Lemma xadd_comm (x y : xreal) : xadd x y = xadd y x.
Proof. destruct x, y; simpl; try done. f_equal. lra. Qed.

Lemma xabs_xsub_sym (x y : xreal) : xabs (xsub x y) = xabs (xsub y x).
Proof.
  destruct x as [a| | |], y as [b| | |]; simpl; try done. f_equal.
  replace (b + - a) with (- (a + - b)) by lra. by rewrite Rabs_Ropp.
Qed.

(** The kernel does not depend on the order of its two times, whatever
    the values. *)
Lemma fbm_entry_xreal_comm (alpha tt ts : xreal) :
  fbm_entry alpha tt ts = fbm_entry alpha ts tt.
Proof.
  unfold fbm_entry. cbn [fmul fadd fsub fpow fabs of_int half xreal_arith].
  rewrite (xabs_xsub_sym tt ts).
  by rewrite (xadd_comm (xpow tt _) (xpow ts _)).
Qed.

(** On a non-negative base and a non-negative exponent the power is the
    one of the reals. *)
Lemma xpow_Fin (a b : R) : 0 <= a → 0 <= b → xpow (Fin a) (Fin b) = Fin (Rpow a b).
Proof.
  intros Ha Hb. unfold xpow, Rpow.
  repeat real_case; (done || lra).
Qed.

(** On finite non-negative times and a finite non-negative [alpha] the
    kernel is the one of the reals. *)
Lemma fbm_entry_Fin (a t s : R) :
  0 <= a → 0 <= t → 0 <= s →
  fbm_entry (Fin a) (Fin t) (Fin s) = Fin (fbm_entry a t s).
Proof.
  intros Ha Ht Hs. unfold fbm_entry.
  cbn [fmul fadd fsub fpow fabs of_int half xreal_arith R_arith
       xmul xadd xsub xneg xabs].
  rewrite !xpow_Fin by (try apply Rabs_pos; lra).
  reflexivity.
Qed.

(** The hypothesis on [alpha] matters: with a negative [alpha] the kernel
    of a time with itself is minus infinity. *)
Lemma fbm_entry_negative_alpha : fbm_entry (Fin (-1)) (Fin 1) (Fin 1) = NInf.
Proof.
  unfold fbm_entry.
  cbn [fmul fadd fsub fpow fabs of_int half xreal_arith xmul xadd xsub xneg xabs].
  assert (E1 : xpow (Fin 1) (Fin (2 * -1)) = Fin 1).
  { unfold xpow. repeat real_case; try lra.
    unfold Rpower. by rewrite ln_1, Rmult_0_r, exp_0. }
  assert (E0 : xpow (Fin (Rabs (1 + - (1)))) (Fin (2 * -1)) = PInf).
  { replace (1 + - (1)) with 0 by lra. rewrite Rabs_R0.
    unfold xpow. repeat real_case; (done || lra). }
  rewrite E1, E0. cbn. repeat real_case; (done || lra).
Qed.

End KernelSpecialValues.

(** ** The fBm kernel at 0.5 with rounding *)

Section RoundingLemmas.
Local Open Scope R_scope.
Variable rnd : R → R.
Variable u : R.

Lemma rnd_abs (x : R) : rounding u rnd → rnd (Rabs (rnd x)) = Rabs (rnd x).
Proof.
  intros Hrnd.
  unfold Rabs. destruct (Rcase_abs (rnd x)).
  - by rewrite (rnd_opp u rnd Hrnd), (rnd_idem u rnd Hrnd).
  - apply (rnd_idem u rnd Hrnd).
Qed.

Lemma rounded_exponent :
  rounding u rnd →
  @fmul R (rounded_arith rnd) (@of_int R (rounded_arith rnd) 2) (/ 2) = 1.
Proof.
  intros Hrnd.
  cbn [fmul of_int rounded_arith]. rewrite (rnd_two u rnd Hrnd).
  replace (2 * / 2) with 1 by lra. apply (rnd_one u rnd Hrnd).
Qed.

Lemma fbm_entry_rounded (tt ts : R) :
  rounding u rnd → 0 <= tt → 0 <= ts → rnd tt = tt → rnd ts = ts →
  @fbm_entry R (rounded_arith rnd) (/ 2) tt ts
    = rnd (/ 2 * rnd (rnd (tt + ts) - Rabs (rnd (tt - ts)))).
Proof.
  intros Hrnd Ht Hs Et Es. unfold fbm_entry. rewrite rounded_exponent by done.
  cbn [fmul fadd fsub fpow fabs half rounded_arith].
  rewrite !Rpow_1 by (done || apply Rabs_pos).
  by rewrite Et, Es, rnd_abs.
Qed.

Lemma fbm_entry_rounded_comm (alpha tt ts : R) :
  rounding u rnd →
  @fbm_entry R (rounded_arith rnd) alpha tt ts = @fbm_entry R (rounded_arith rnd) alpha ts tt.
Proof.
  intros Hrnd. unfold fbm_entry. cbn [fmul fadd fsub fpow fabs half of_int rounded_arith].
  replace (ts - tt) with (- (tt - ts)) by lra.
  rewrite (rnd_opp u rnd Hrnd), Rabs_Ropp.
  by rewrite (Rplus_comm (rnd (Rpow ts _))).
Qed.

Lemma Rabs_le_bounds (x y : R) : Rabs x <= y → - y <= x <= y.
Proof. unfold Rabs. destruct (Rcase_abs x); lra. Qed.

Lemma rnd_bounds (x : R) :
  rounding u rnd → - (u * Rabs x) <= rnd x - x <= u * Rabs x.
Proof.
  intros Hrnd.
  pose proof (rnd_error u rnd Hrnd x) as H.
  unfold Rabs in H at 1. destruct (Rcase_abs (rnd x - x)); lra.
Qed.

(** The error of the rounded kernel at 0.5: four roundings, each with
    relative error at most [u]. *)
Lemma rounded_half_error (tt ts : R) :
  rounding u rnd → 0 <= u <= / 4 → 0 <= tt → 0 <= ts →
  Rabs (rnd (/ 2 * rnd (rnd (tt + ts) - Rabs (rnd (tt - ts)))) - Rmin tt ts)
    <= 4 * u * Rmax tt ts.
Proof.
  intros Hrnd Hu Ht Hs.
  set (a := tt + ts). set (b := tt - ts).
  set (A := rnd a). set (B := rnd b). set (d := A - Rabs B).
  set (D := rnd d). set (v := rnd (/ 2 * D)).
  pose proof (rnd_bounds a Hrnd) as HA. pose proof (rnd_bounds b Hrnd) as HB.
  pose proof (rnd_bounds d Hrnd) as HD. pose proof (rnd_bounds (/ 2 * D) Hrnd) as Hv.
  fold A in HA. fold B in HB. fold D in HD. fold v in Hv.
  assert (Emin : Rmin tt ts = (a - Rabs b) / 2).
  { unfold a, b, Rmin, Rabs. destruct (Rle_dec tt ts), (Rcase_abs (tt - ts)); lra. }
  assert (Emax : Rmax tt ts = (a + Rabs b) / 2).
  { unfold a, b, Rmax, Rabs. destruct (Rle_dec tt ts), (Rcase_abs (tt - ts)); lra. }
  assert (Hb : 0 <= Rabs b <= a).
  { unfold a, b, Rabs. destruct (Rcase_abs (tt - ts)); lra. }
  rewrite Emin, Emax.
  rewrite (Rabs_pos_eq a) in HA by lra.
  set (β := Rabs b) in *. set (M := (a + β) / 2).
  assert (HM : 0 <= M) by (unfold M; lra).
  assert (Hw : 0 <= u * M) by (apply Rmult_le_pos; lra).
  assert (Hc : - (u * β) <= Rabs B - β <= u * β).
  { pose proof (Rabs_triang_inv2 B b) as Htri.
    pose proof (rnd_error u rnd Hrnd b) as He.
    apply Rabs_le_bounds. unfold β, B in *. lra. }
  assert (Hua : u * a + u * β = 2 * (u * M)) by (unfold M; lra).
  assert (Hd : Rabs d <= 2 * M + 2 * (u * M)).
  { unfold d, Rabs at 1. unfold M. destruct (Rcase_abs (A - Rabs B)); lra. }
  assert (Hud : u * Rabs d <= 2 * (u * M) + 2 * (u * (u * M))).
  { replace (2 * (u * M) + 2 * (u * (u * M))) with (u * (2 * M + 2 * (u * M))) by lra.
    apply Rmult_le_compat_l; lra. }
  assert (Huw : u * (u * M) <= / 4 * (u * M)).
  { apply Rmult_le_compat_r; lra. }
  assert (HDabs : Rabs D <= 2 * M + 4 * (u * M) + 2 * (u * (u * M))).
  { unfold Rabs at 1. unfold Rabs in Hd. destruct (Rcase_abs D), (Rcase_abs d); lra. }
  assert (HuD : u * Rabs (/ 2 * D) <= u * M + 2 * (u * (u * M)) + u * (u * (u * M))).
  { rewrite Rabs_mult, (Rabs_pos_eq (/ 2)) by lra.
    replace (u * M + 2 * (u * (u * M)) + u * (u * (u * M)))
      with (u * (/ 2 * (2 * M + 4 * (u * M) + 2 * (u * (u * M))))) by lra.
    apply Rmult_le_compat_l; lra. }
  assert (Huuw : u * (u * (u * M)) <= / 4 * (u * (u * M))).
  { apply Rmult_le_compat_r; [|lra]. apply Rmult_le_pos; lra. }
  assert (Huw0 : 0 <= u * (u * M)) by (apply Rmult_le_pos; lra).
  unfold Rabs at 1. destruct (Rcase_abs (v - (a - β) / 2)); unfold d in *; lra.
Qed.

End RoundingLemmas.

Lemma rnd_toy_rounding : rounding (/ 8) rnd_toy.
Proof.
  split.
  - intros x. unfold rnd_toy.
    repeat real_case; subst; unfold Rabs; repeat destruct (Rcase_abs _); lra.
  - intros x. unfold rnd_toy. repeat real_case; (done || lra).
  - intros x. unfold rnd_toy. repeat real_case; lra.
  - unfold rnd_toy. repeat real_case; lra.
  - unfold rnd_toy. repeat real_case; lra.
Qed.

(** With the rounding of the example the entry is not the minimum. *)
Lemma rounded_entry_example :
  rnd_toy (/ 2 * rnd_toy (rnd_toy (2 + 1) - Rabs (rnd_toy (2 - 1))))%R = (17 / 16)%R.
Proof.
  replace (2 + 1)%R with 3%R by lra. replace (2 - 1)%R with 1%R by lra.
  assert (E3 : rnd_toy 3 = (25 / 8)%R) by (unfold rnd_toy; repeat real_case; lra).
  assert (E1 : rnd_toy 1 = 1%R) by (unfold rnd_toy; repeat real_case; lra).
  rewrite E3, E1, Rabs_R1.
  replace (25 / 8 - 1)%R with (17 / 8)%R by lra.
  assert (E2 : rnd_toy (17 / 8) = (17 / 8)%R) by (unfold rnd_toy; repeat real_case; lra).
  rewrite E2. replace (/ 2 * (17 / 8))%R with (17 / 16)%R by lra.
  unfold rnd_toy; repeat real_case; lra.
Qed.

(** * The claims *)

(** ** C1: the sums of the Hurst estimator *)

(** C1, as stated, fails: on [X_sums], of length 6, the estimator's [s1] is
    not the sum over [i = 4 .. N−1]: the loop starts at 5 and yields 4, the
    sum from 4 is 5. *)
Lemma hurst_s1_is_not_the_sum_from_4 :
  5 ≤ length X_sums ∧ ¬ estimator_sums_from 4 2 X_sums half.
Proof.
  split; [simpl; lia|].
  intros (s1 & s2 & E1 & V1 & _).
  rewrite hurst_s1_value in E1. injection E1 as <-.
  unfold sigma, second_diff, at_index, X_sums, range in V1.
  cbn -[Rabs Rpow] in V1.
  rewrite !Rpow_abs_2 in V1. lra.
Qed.

(** C1, amended: for every path [X] of length at least 5 and every [alpha],
    the estimator computes [s1] as the sum over [i = 5 .. N−1] of
    [|X[i] − 2·X[i−2] + X[i−4]|²], [s2] as the sum over [i = 3 .. N−1] of
    [|X[i] − 2·X[i−1] + X[i−2]|²], and returns
    [log(s1/s2)/(2·log 2) − alpha]. *)
Theorem hurst_estimator_sums {F : Type} `{Arith F} (X : list F) (alpha : F) :
  5 ≤ length X → estimator_sums_from 5 3 X alpha.
Proof.
  intros Hlen.
  eexists _, _. split; [apply hurst_s1_value|].
  split; [exact (to_float_accumulate _ _ (PyInt 0))|].
  split; [apply hurst_s2_value|].
  split; [exact (to_float_accumulate _ _ (PyInt 0))|].
  rewrite hurst_estimate_value by lia.
  by rewrite !to_float_accumulate.
Qed.

Lemma hurst_estimator_sums_witness :
  5 ≤ length X_sums ∧ estimator_sums_from 5 3 X_sums half.
Proof.
  split; [simpl; lia|]. apply (hurst_estimator_sums X_sums half). simpl. lia.
Defined.

(** ** C2: degenerate paths *)

Lemma S2_X_short : S2 X_short = 4%R.
Proof.
  unfold S2, sigma, second_diff, at_index, X_short, range.
  cbn -[Rabs Rpow]. rewrite Rpow_abs_2. lra.
Qed.

(** C2, as stated, fails: [X_short] is degenerate, the estimator appends
    minus infinity for it, and the list that is aggregated is not the one
    without it. *)
Lemma short_path_is_aggregated :
  degenerate (map Fin X_short) ∧
  hurst_L half [map Fin X_short] = Ok [NInf] ∧
  ¬ excluded_from_aggregation half [] (map Fin X_short) [].
Proof.
  assert (E : hurst_L half [map Fin X_short] = Ok [NInf]).
  { unfold hurst_L. rewrite hurst_L_loop by (apply Forall_singleton; simpl; lia).
    cbn [map app]. change (half : xreal) with (Fin (/ 2)).
    rewrite estimate_value_Fin, S1_short, S2_X_short by (simpl; lia).
    unfold estimate_of_sums. repeat real_case; (done || lra). }
  split; [left; simpl; lia|]. split; [exact E|].
  unfold excluded_from_aggregation. cbn [app]. rewrite E. discriminate.
Qed.

(** C2, amended: the estimator has no undefined result and leaves no path
    out.  For a batch of finite paths of length at least 4, the list
    handed to [np.mean] and [np.std] holds the value
    [log(s1/s2)/(2·log 2) − alpha] of every path, in order; for a path of
    length at most 5, or with [s2] equal to zero, that value is an infinity
    or nan.  A path of length at most 3 makes the division of the integer 0
    by the integer 0 raise [ZeroDivisionError], and nothing is reported. *)
Theorem degenerate_estimates_are_aggregated (np_mean np_std : list xreal → xreal)
    (a : R) :
  (∀ xss, Forall (λ xs, 4 ≤ length xs) xss →
     hurst_L (Fin a) (map (map Fin) xss)
       = Ok (map (λ xs, estimate_of_sums (S1 xs) (S2 xs) a) xss) ∧
     hurst_report np_mean np_std (Fin a) (map (map Fin) xss)
       = Ok (np_mean (map (λ xs, estimate_of_sums (S1 xs) (S2 xs) a) xss),
             np_std (map (λ xs, estimate_of_sums (S1 xs) (S2 xs) a) xss))) ∧
  (∀ xs, length xs ≤ 5 ∨ S2 xs = 0%R →
     not_finite (estimate_of_sums (S1 xs) (S2 xs) a)) ∧
  (∀ xss1 xs xss2, Forall (λ xs, 4 ≤ length xs) xss1 → length xs ≤ 3 →
     hurst_L (Fin a) (map (map Fin) (xss1 ++ xs :: xss2)) = Raise ZeroDivisionError ∧
     hurst_report np_mean np_std (Fin a) (map (map Fin) (xss1 ++ xs :: xss2))
       = Raise ZeroDivisionError).
Proof.
  destruct (hurst_L_every_path np_mean np_std (Fin a)) as [Hok Hraise].
  split; [|split].
  - intros xss Hall.
    assert (Hmap : map (estimate_value (Fin a)) (map (map Fin) xss)
                   = map (λ xs, estimate_of_sums (S1 xs) (S2 xs) a) xss).
    { rewrite map_map. apply map_ext. intros xs. apply estimate_value_Fin. }
    rewrite <- Hmap. apply Hok.
    apply Forall_fmap. eapply Forall_impl; [exact Hall|].
    intros xs Hxs. simpl. by rewrite length_map.
  - intros xs Hdeg. apply estimate_of_sums_degenerate.
    destruct Hdeg as [Hlen|Hs2]; [left; by apply S1_short|by right].
  - intros xss1 xs xss2 Hall Hlen.
    rewrite map_app. simpl map. apply Hraise.
    + apply Forall_fmap. eapply Forall_impl; [exact Hall|].
      intros ys Hys. simpl. by rewrite length_map.
    + by rewrite length_map.
Qed.

Lemma degenerate_estimates_are_aggregated_witness :
  hurst_L (Fin (/ 2)) (map (map Fin) [X_short])
    = Ok (map (λ xs, estimate_of_sums (S1 xs) (S2 xs) (/ 2)) [X_short]) ∧
  not_finite (estimate_of_sums (S1 X_short) (S2 X_short) (/ 2)) ∧
  hurst_L (Fin (/ 2)) (map (map Fin) ([X_short] ++ [0%R; 1%R] :: []))
    = Raise ZeroDivisionError.
Proof.
  destruct (degenerate_estimates_are_aggregated (λ _, NaN) (λ _, NaN) (/ 2))
    as (Hok & Hdeg & Hraise).
  assert (Hall : Forall (λ xs : list R, 4 ≤ length xs) [X_short])
    by (apply Forall_singleton; simpl; lia).
  split; [apply (Hok [X_short] Hall)|].
  split; [apply Hdeg; left; simpl; lia|].
  apply (Hraise [X_short] [0%R; 1%R] [] Hall). simpl. lia.
Defined.

(** ** C3: a failing factorization *)

(** C3, as stated, fails: on the grid [time0] the factorization fails for
    [alpha = 1] and succeeds for [alpha = 0.5], and the run over the list
    [1, 0.5] ends with [LinAlgError] without having processed 0.5. *)
Lemma cholesky_failure_blocks_later_alpha :
  factorization_fails time0 cholesky_R fbm_entry 1%R ∧
  factorization_succeeds time0 cholesky_R fbm_entry half ∧
  (fbm_cell time0 normal0 cholesky_R [1%R; half] 0).2 = Raise LinAlgError ∧
  ¬ processed (fbm_cell time0 normal0 cholesky_R [1%R; half] 0).1 half.
Proof.
  split; [apply factorization_fails_one|].
  split; [apply factorization_succeeds_half|].
  unfold fbm_cell. simpl gen_cell.
  rewrite (gen_unit_fails time0 normal0 cholesky_R fbm_entry 1%R 0
             factorization_fails_one).
  split; [done|]. intros [batch E]. discriminate.
Qed.

(** C3, amended: a factorization failure for one [alpha] raises
    [LinAlgError] out of the per-alpha loop.  When the factorizations of the
    values before it succeed, the dictionary is the one those iterations
    left, with batches for values before the failure only: neither that
    [alpha] nor any value after it in the list is processed by the failing
    run.  The fBm cell is the loop with
    [entry = fbm_entry], the Riemann-Liouville cell the loop with
    [entry = rl_entry quad]. *)
Theorem cholesky_failure_ends_loop {F : Type} `{Arith F} `{EqDecision F}
    (time : list F) (normal : nat → F) (cholesky : matrix F → option (matrix F))
    (entry : F → F → F → F) (alphas1 alphas2 : list F) (alpha : F) (k : nat) :
  Forall (factorization_succeeds time cholesky entry) alphas1 →
  factorization_fails time cholesky entry alpha →
  ∃ X1 k1,
    gen_cell time normal cholesky entry alphas1 [] k = (X1, Ok k1) ∧
    gen_cell time normal cholesky entry (alphas1 ++ alpha :: alphas2) [] k
      = (X1, Raise LinAlgError) ∧
    ∀ a, processed X1 a → a ∈ alphas1.
Proof.
  intros Hok Hfail.
  destruct (gen_cell_first_failure time normal cholesky entry alphas1 alphas2 alpha
              [] k Hok Hfail) as (X1 & k1 & E1 & E2 & Hkeys).
  exists X1, k1. split; [exact E1|]. split; [exact E2|].
  intros a Ha. destruct (Hkeys a Ha) as [[batch Hdict]|Hin]; [discriminate|exact Hin].
Qed.

Lemma cholesky_failure_ends_loop_witness :
  Forall (factorization_succeeds time0 cholesky_R fbm_entry) [half] ∧
  factorization_fails time0 cholesky_R fbm_entry 1%R ∧
  ∃ X1 k1,
    fbm_cell time0 normal0 cholesky_R [half] 0 = (X1, Ok k1) ∧
    fbm_cell time0 normal0 cholesky_R ([half] ++ 1%R :: [half]) 0
      = (X1, Raise LinAlgError) ∧
    ∀ a, processed X1 a → a ∈ [half].
Proof.
  pose proof (Forall_singleton (factorization_succeeds time0 cholesky_R fbm_entry) half)
    as [_ Hall].
  specialize (Hall factorization_succeeds_half).
  split; [exact Hall|]. split; [exact factorization_fails_one|].
  exact (cholesky_failure_ends_loop time0 normal0 cholesky_R fbm_entry
           [half] [half] 1%R 0%nat Hall factorization_fails_one).
Defined.

(** ** C4: the entries of the fBm covariance matrix *)

(** C4: for every grid and every [alpha], finite or not, the fBm assembly
    returns, and the entry at every position [(i, j)] of the grid is
    [0.5·(t_i^(2α) + t_j^(2α) − |t_i − t_j|^(2α))].  Above the diagonal the
    array holds the value computed for [(j, i)], which is the same value. *)
Theorem fbm_covariance_entries (time : list xreal) (alpha : xreal) (i j : nat)
    (ti tj : xreal) :
  time !! i = Some ti → time !! j = Some tj →
  ∃ M, fbm_mat_cov time alpha = Ok M ∧
       mat_lookup M i j
         = Some (half * (ti ** (of_int 2 * alpha) + tj ** (of_int 2 * alpha)
                         - fabs (ti - tj) ** (of_int 2 * alpha)))%fl.
Proof.
  intros Ei Ej. destruct (fbm_mat_cov_returns time alpha) as [M E].
  exists M. split; [exact E|].
  apply (assemble_lookup time (fbm_entry alpha) M i j ti tj); try done.
  apply fbm_entry_xreal_comm.
Qed.

Lemma fbm_covariance_entries_witness :
  map Fin time0 !! 0 = Some (Fin 1) ∧ map Fin time0 !! 1 = Some (Fin 2) ∧
  ∃ M, fbm_mat_cov (map Fin time0) half = Ok M ∧
       mat_lookup M 0 1
         = Some (half * (Fin 1 ** (of_int 2 * half) + Fin 2 ** (of_int 2 * half)
                         - fabs (Fin 1 - Fin 2) ** (of_int 2 * half)))%fl.
Proof.
  split; [reflexivity|]. split; [reflexivity|].
  apply (fbm_covariance_entries (map Fin time0) half 0 1 (Fin 1) (Fin 2)); reflexivity.
Defined.

(** ** C5: symmetry and the diagonal *)

(** C5: for every grid and every [alpha], both assemblies return a matrix
    whose entries at [(i, j)] and [(j, i)] are the same value; and for a
    grid of finite non-negative times and a finite non-negative [alpha],
    every diagonal entry of the fBm matrix is a finite non-negative
    number. *)
Theorem covariance_symmetric_diagonal_nonnegative (time : list xreal)
    (quad : (xreal → xreal) → xreal → xreal → xreal * xreal) (alpha : xreal) :
  ∃ Mf Mr,
    fbm_mat_cov time alpha = Ok Mf ∧ rl_mat_cov time quad alpha = Ok Mr ∧
    (∀ i j, mat_lookup Mf i j = mat_lookup Mf j i) ∧
    (∀ i j, mat_lookup Mr i j = mat_lookup Mr j i) ∧
    (∀ ts a, time = map Fin ts → alpha = Fin a →
       (0 <= a)%R → Forall (λ t, (0 <= t)%R) ts →
       ∀ i, i < N time → ∃ v, mat_lookup Mf i i = Some (Fin v) ∧ (0 <= v)%R).
Proof.
  destruct (assemble_spec time (fbm_entry alpha)) as (Mf & Ef & _ & Hval).
  destruct (assemble_spec time (rl_entry quad alpha)) as (Mr & Er & _ & _).
  exists Mf, Mr. split; [exact Ef|]. split; [exact Er|].
  split; [intros i j; by apply (assemble_symmetric time (fbm_entry alpha))|].
  split; [intros i j; by apply (assemble_symmetric time (rl_entry quad alpha))|].
  intros ts a -> -> Ha Hts i Hi.
  exists (fbm_entry a (at_index ts i) (at_index ts i)). split.
  - rewrite (Hval i i Hi Hi). f_equal.
    unfold assigned. rewrite Nat.max_id, Nat.min_id, at_index_Fin.
    unfold N in Hi. rewrite length_map in Hi.
    destruct (lookup_lt_is_Some_2 ts i Hi) as [t Et].
    assert (0 <= t)%R.
    { apply (Forall_forall (λ t, (0 <= t)%R) ts); [done|].
      by apply list_elem_of_lookup_2 with i. }
    unfold at_index. rewrite Et. simpl default. by apply fbm_entry_Fin.
  - apply fbm_entry_diag.
Qed.

Lemma covariance_symmetric_diagonal_nonnegative_witness :
  (0 <= / 2)%R ∧ Forall (λ t, (0 <= t)%R) time0 ∧
  ∃ Mf Mr,
    fbm_mat_cov (map Fin time0) half = Ok Mf ∧
    rl_mat_cov (map Fin time0) midpoint_rule half = Ok Mr ∧
    (∀ i j, mat_lookup Mf i j = mat_lookup Mf j i) ∧
    (∀ i j, mat_lookup Mr i j = mat_lookup Mr j i) ∧
    (∀ i, i < N (map Fin time0) → ∃ v, mat_lookup Mf i i = Some (Fin v) ∧ (0 <= v)%R).
Proof.
  assert (Ha : (0 <= / 2)%R) by lra.
  assert (Ht : Forall (λ t, (0 <= t)%R) time0)
    by (repeat constructor; lra).
  split; [exact Ha|]. split; [exact Ht|].
  destruct (covariance_symmetric_diagonal_nonnegative (map Fin time0)
              midpoint_rule half)
    as (Mf & Mr & Ef & Er & Hsf & Hsr & Hdiag).
  exists Mf, Mr. repeat (split; [assumption|]).
  exact (Hdiag time0 (/ 2)%R eq_refl eq_refl Ha Ht).
Defined.

(** ** C6: the Brownian specialization *)

(** C6, as stated, fails in float64: on the grid of the floats 0.1 and 0.3,
    with the literal 0.5 for [alpha], the entry for the two times is not
    their minimum 0.1 but the next float above it, 0.10000000000000002,
    whatever the power and the logarithm of the library are, as long as the
    power returns its base at the exponent 1. *)
Lemma fbm_half_entry_is_not_the_minimum :
  SFltb b64_tenth b64_three_tenths = true ∧
  ∀ pow log, pow_keeps_base_at_one pow →
    ∃ M v, @fbm_mat_cov spec_float (b64_arith pow log) [b64_tenth; b64_three_tenths]
             (@half spec_float (b64_arith pow log)) = Ok M ∧
           mat_lookup M 1 0 = Some v ∧
           v = SFsucc 53 1024 b64_tenth ∧
           v ≠ b64_tenth.
Proof.
  split; [vm_compute; reflexivity|].
  intros pow log Hpow.
  eexists _, _. split; [apply (@assemble_two_times spec_float (b64_arith pow log))|].
  split; [reflexivity|].
  assert (E : @fbm_entry spec_float (b64_arith pow log) (@half spec_float (b64_arith pow log))
                b64_three_tenths b64_tenth
              = SFsucc 53 1024 b64_tenth).
  { unfold fbm_entry. cbn [fmul fadd fsub fpow fabs half of_int b64_arith].
    replace (SFmul 53 1024 (b64_of_Z 2) (SFdiv 53 1024 (b64_of_Z 1) (b64_of_Z 2)))
      with (b64_of_Z 1) by (vm_compute; reflexivity).
    rewrite !Hpow. vm_compute. reflexivity. }
  split; [exact E|]. rewrite E. vm_compute. discriminate.
Qed.

(** C6, amended: with the literal 0.5 for [alpha] and a grid of
    non-negative floats, the entry at every position [(i, j)] of the grid is
    the value of [0.5·(t_i + t_j − |t_i − t_j|)] computed with a rounding at
    each operation (the exponent is exactly 1 and the three powers are their
    bases), and it is [min(t_i, t_j)] within tolerance: when every operation
    has a relative error of at most [u ≤ 1/4], the entry differs from
    [min(t_i, t_j)] by at most [4·u·max(t_i, t_j)].  Without rounding
    ([u = 0]) the entry is [min(t_i, t_j)], the value of the kernel in exact
    arithmetic. *)
Theorem fbm_half_is_brownian_covariance_up_to_rounding (rnd : R → R) (u : R)
    (ts : list R) (i j : nat) (ti tj : R) :
  rounding u rnd → (0 <= u <= / 4)%R →
  Forall (λ t, (0 <= t)%R ∧ rnd t = t) ts →
  ts !! i = Some ti → ts !! j = Some tj →
  ∃ M v, @fbm_mat_cov R (rounded_arith rnd) ts (/ 2)%R = Ok M ∧
         mat_lookup M i j = Some v ∧
         v = rnd (/ 2 * rnd (rnd (ti + tj) - Rabs (rnd (ti - tj))))%R ∧
         (Rabs (v - Rmin ti tj) <= 4 * u * Rmax ti tj)%R ∧
         (/ 2 * (ti + tj - Rabs (ti - tj)))%R = Rmin ti tj.
Proof.
  intros Hrnd Hu Hts Ei Ej.
  assert (Hti : (0 <= ti)%R ∧ rnd ti = ti).
  { apply (Forall_forall (λ t, (0 <= t)%R ∧ rnd t = t) ts); [done|].
    by apply list_elem_of_lookup_2 with i. }
  assert (Htj : (0 <= tj)%R ∧ rnd tj = tj).
  { apply (Forall_forall (λ t, (0 <= t)%R ∧ rnd t = t) ts); [done|].
    by apply list_elem_of_lookup_2 with j. }
  destruct Hti as [Hti Eti], Htj as [Htj Etj].
  destruct (@fbm_mat_cov_returns R (rounded_arith rnd) ts (/ 2)%R) as [M E].
  exists M. eexists. split; [exact E|]. split; [|split; [reflexivity|split]].
  - rewrite (@assemble_lookup R (rounded_arith rnd) ts
               (@fbm_entry R (rounded_arith rnd) (/ 2)%R) M i j ti tj);
      [|intros x y; by apply (fbm_entry_rounded_comm rnd u)|exact E|exact Ei|exact Ej].
    f_equal. by apply (fbm_entry_rounded rnd u).
  - by apply (rounded_half_error rnd u).
  - unfold Rmin, Rabs. destruct (Rle_dec ti tj), (Rcase_abs (ti - tj)); lra.
Qed.

Lemma fbm_half_is_brownian_covariance_up_to_rounding_witness :
  rounding (/ 8) rnd_toy ∧ (0 <= / 8 <= / 4)%R ∧
  Forall (λ t, (0 <= t)%R ∧ rnd_toy t = t) time0 ∧
  time0 !! 1 = Some 2%R ∧ time0 !! 0 = Some 1%R ∧
  ∃ M v, @fbm_mat_cov R (rounded_arith rnd_toy) time0 (/ 2)%R = Ok M ∧
         mat_lookup M 1 0 = Some v ∧
         v = rnd_toy (/ 2 * rnd_toy (rnd_toy (2 + 1) - Rabs (rnd_toy (2 - 1))))%R ∧
         (Rabs (v - Rmin 2 1) <= 4 * / 8 * Rmax 2 1)%R ∧
         (/ 2 * (2 + 1 - Rabs (2 - 1)))%R = Rmin 2 1.
Proof.
  assert (Hu : (0 <= / 8 <= / 4)%R) by lra.
  assert (Ht : Forall (λ t, (0 <= t)%R ∧ rnd_toy t = t) time0).
  { repeat constructor; try lra; unfold rnd_toy; repeat real_case; lra. }
  split; [exact rnd_toy_rounding|]. split; [exact Hu|]. split; [exact Ht|].
  split; [reflexivity|]. split; [reflexivity|].
  exact (fbm_half_is_brownian_covariance_up_to_rounding rnd_toy (/ 8) time0 1 0 2%R 1%R
           rnd_toy_rounding Hu Ht eq_refl eq_refl).
Defined.

(** ** C7: every path starts at zero *)

(** C7: on every grid the list the Brownian loop builds has zero at index
    0; on a grid of at least one time the Brownian cell hands five lists to
    the plot, each with zero at index 0 and with one entry per time; and
    every path of every batch that the fBm cell and the Riemann-Liouville
    cell store, for every list of [alpha] and however the run ends, has zero
    at index 0. *)
Theorem every_path_starts_at_zero {F : Type} `{Arith F} `{EqDecision F}
    (time : list F) (quad : (F → F) → F → F → F * F) (normal : nat → F)
    (cholesky : matrix F → option (matrix F)) (alphas : list F) (k : nat) :
  (∃ W k', brownian_path time normal k = Ok (W, k') ∧ W !! 0 = Some (PyInt 0)) ∧
  (1 ≤ N time →
   ∃ Ws k', brownian_cell time normal k = Ok (Ws, k') ∧ length Ws = 5 ∧
            Forall (λ W, W !! 0 = Some (PyInt 0) ∧ length W = N time) Ws) ∧
  paths_start_at_zero (fbm_cell time normal cholesky alphas k).1 ∧
  paths_start_at_zero (rl_cell time quad normal cholesky alphas k).1.
Proof.
  split; [|split; [|split]].
  - destruct (brownian_path_spec time normal k) as (W & E & _ & _ & H0 & _).
    by exists W, (k + (N time - 1)).
  - intros HN. unfold brownian_cell, range. simpl.
    repeat match goal with
    | |- context [brownian_path time normal ?k] =>
        let W := fresh "W" in let E := fresh "E" in let Hinv := fresh "Hinv" in
        let Hlen := fresh "Hlen" in
        destruct (brownian_path_spec time normal k) as (W & E & Hinv);
        rewrite E; simpl; destruct Hinv as (Hlen & _ & Hinv & _); simpl in Hinv, Hlen
    end.
    eexists _, _. split; [reflexivity|]. split; [reflexivity|].
    repeat constructor; (assumption || lia).
  - apply gen_cell_zero. apply Forall_nil_2.
  - apply gen_cell_zero. apply Forall_nil_2.
Qed.

Lemma every_path_starts_at_zero_witness :
  1 ≤ N time0 ∧
  (∃ Ws k', brownian_cell time0 normal0 0 = Ok (Ws, k') ∧ length Ws = 5 ∧
            Forall (λ W, W !! 0 = Some (PyInt 0) ∧ length W = N time0) Ws) ∧
  paths_start_at_zero (fbm_cell time0 normal0 cholesky_R [half] 0).1.
Proof.
  assert (HN : 1 ≤ N time0) by (unfold N, time0; simpl; lia).
  destruct (every_path_starts_at_zero time0 midpoint_rule normal0 cholesky_R [half] 0)
    as (_ & Hcell & Hfbm & _).
  split; [exact HN|]. split; [exact (Hcell HN)|exact Hfbm].
Defined.

(** ** C8: the Brownian path is a prefix sum *)

(** C8: the Brownian path is computed from the grid length and the draws
    alone (no covariance matrix, no factorization): it starts with 0, each
    later entry is the entry before it plus the next draw, one draw per
    entry, and it has [N] entries. *)
Theorem brownian_path_is_prefix_sum {F : Type} `{Arith F} (time : list F)
    (normal : nat → F) (k : nat) :
  ∃ W, brownian_path time normal k = Ok (W, k + (N time - 1)) ∧
       W !! 0 = Some (PyInt 0) ∧
       (∀ i, 1 ≤ i → i < N time →
          ∃ w, W !! (i - 1) = Some w ∧
               W !! i = Some (PyFloat (fadd (to_float w) (normal (k + (i - 1)))))) ∧
       (1 ≤ N time → length W = N time).
Proof.
  destruct (brownian_path_spec time normal k) as (W & E & Hlen & _ & H0 & Hstep).
  exists W. split; [exact E|]. split; [exact H0|]. split.
  - intros i Hi1 Hi2. apply Hstep; lia.
  - intros HN. simpl in Hlen. lia.
Qed.

Lemma brownian_path_is_prefix_sum_witness :
  ∃ W, brownian_path time0 normal0 3 = Ok (W, 3 + (N time0 - 1)) ∧
       W !! 0 = Some (PyInt 0) ∧
       (∃ w, W !! 0 = Some w ∧ W !! 1 = Some (PyFloat (to_float w + normal0 3)%R)) ∧
       length W = 2.
Proof.
  destruct (brownian_path_is_prefix_sum time0 normal0 3) as (W & E & H0 & Hstep & Hlen).
  exists W. split; [exact E|]. split; [exact H0|]. split.
  - apply (Hstep 1); unfold N, time0; simpl; lia.
  - apply Hlen. unfold N, time0. simpl. lia.
Defined.

(** ** C9: pinning changes index 0 only *)

(** C9: for a factor with at least one row, the draw returns the projected
    vector with index 0 set to zero: every entry at an index [i ≥ 1] is the
    product of row [i] of the factor with the noise vector. *)
Theorem pinning_changes_index_0_only {F : Type} `{Arith F} (time : list F)
    (normal : nat → F) (C : matrix F) (k : nat) :
  C ≠ [] →
  ∃ Y, draw_path time normal C k = Ok (Y, k + N time) ∧
       Y !! 0 = Some (of_int 0) ∧
       ∀ i row, 1 ≤ i → C !! i = Some row →
         Y !! i = Some (dot_row row (normal_vec normal k (N time))) ∧
         Y !! i = np_dot C (normal_vec normal k (N time)) !! i.
Proof.
  intros HC. eexists. split; [by apply draw_path_ok|]. split.
  - apply list_lookup_insert_eq. rewrite length_np_dot. destruct C; [done|simpl; lia].
  - intros i row Hi Erow. rewrite list_lookup_insert_ne by lia.
    split; [by apply np_dot_lookup|done].
Qed.

Lemma pinning_changes_index_0_only_witness :
  [[1; 0]; [1; 1]]%R ≠ [] ∧
  ∃ Y, draw_path time0 normal0 [[1; 0]; [1; 1]]%R 0 = Ok (Y, 0 + N time0) ∧
       Y !! 0 = Some 0%R ∧
       ∀ i row, 1 ≤ i → [[1; 0]; [1; 1]]%R !! i = Some row →
         Y !! i = Some (dot_row row (normal_vec normal0 0 (N time0))) ∧
         Y !! i = np_dot [[1; 0]; [1; 1]]%R (normal_vec normal0 0 (N time0)) !! i.
Proof.
  assert (HC : [[1; 0]; [1; 1]]%R ≠ []) by discriminate.
  split; [exact HC|].
  exact (pinning_changes_index_0_only time0 normal0 [[1; 0]; [1; 1]]%R 0 HC).
Defined.

(** ** C10: short paths reach the division with zero sums *)

(** C10: for a path of length at most 5 the first loop has no index to run
    over and [s1] is the integer 0 it started with; for a path of length at
    most 3 the same holds of the second loop and [s2]; and the estimator
    rejects nothing: its outcome is that of the division-and-logarithm step
    on these sums. *)
Theorem short_paths_reach_division {F : Type} `{Arith F} (alpha : F) (X : list F) :
  (length X ≤ 5 → range 5 (length X) = [] ∧ hurst_s1 X = Ok (PyInt 0)) ∧
  (length X ≤ 3 → range 3 (length X) = [] ∧ hurst_s2 X = Ok (PyInt 0)) ∧
  (length X ≤ 5 →
     ∃ s2, hurst_s2 X = Ok s2 ∧
           hurst_estimate alpha X = hurst_final (PyInt 0) s2 alpha) ∧
  (length X ≤ 3 →
     hurst_estimate alpha X = hurst_final (PyInt 0) (PyInt 0) alpha).
Proof.
  assert (H1 : length X ≤ 5 → hurst_s1 X = Ok (PyInt 0)).
  { intros Hlen. by rewrite hurst_s1_value, range_empty by lia. }
  assert (H2 : length X ≤ 3 → hurst_s2 X = Ok (PyInt 0)).
  { intros Hlen. by rewrite hurst_s2_value, range_empty by lia. }
  split; [|split; [|split]].
  - intros Hlen. split; [by apply range_empty|by apply H1].
  - intros Hlen. split; [by apply range_empty|by apply H2].
  - intros Hlen. eexists. split; [apply hurst_s2_value|].
    unfold hurst_estimate. by rewrite (H1 Hlen), hurst_s2_value.
  - intros Hlen. unfold hurst_estimate. rewrite H1, H2 by lia. reflexivity.
Qed.

Lemma short_paths_reach_division_witness :
  hurst_s1 [0; 1; 0; 1; 0]%R = Ok (PyInt 0) ∧
  hurst_s2 [0; 1; 0]%R = Ok (PyInt 0) ∧
  hurst_estimate half [0; 1; 0]%R = hurst_final (PyInt 0) (PyInt 0) half.
Proof.
  destruct (short_paths_reach_division half [0; 1; 0; 1; 0]%R) as ([_ H5] & _).
  { simpl. lia. }
  destruct (short_paths_reach_division half [0; 1; 0]%R) as (_ & [_ H3] & _ & Hest).
  { simpl. lia. }
  split; [exact H5|]. split; [exact H3|]. apply Hest. simpl. lia.
Defined.

(** * Further lemmas *)

(** ** Loops *)




(** ** The positions the assembly visits *)

Section AssemblyMore.
Context {F : Type} `{Arith F}.
Variable time : list F.
Variable entry : F → F → F.



End AssemblyMore.

(** ** The kernels on the diagonal and at 0.5 *)

Section KernelMore.
Local Open Scope R_scope.


End KernelMore.

Lemma midpoint_rule_constant_one (f : xreal → xreal) (b : xreal) :
  (∀ x, f x = Fin 1) → (midpoint_rule f (Fin 0) b).1 = b.
Proof.
  intros Hf. unfold midpoint_rule. cbn [fst]. rewrite Hf.
  destruct b as [b| | |]; cbn [fmul fsub xreal_arith xsub xadd xneg xmul]; try done.
  - f_equal. lra.
  - unfold xsign. repeat real_case; (done || lra).
  - unfold xsign. repeat real_case; (done || lra).
Qed.

(** ** The draws of the paths *)

Section SamplingMore.
Context {F : Type} `{Arith F}.
Local Open Scope float_scope.
Variable time : list F.
Variable normal : nat → F.

Lemma draws_sum_S (k n : nat) :
  draws_sum normal k (S n) = draws_sum normal k n + normal (k + n)%nat.
Proof. unfold draws_sum. by rewrite seq_S, foldl_app. Qed.

Lemma length_prefix_sums (n k : nat) : length (prefix_sums normal n k) = S (n - 1).
Proof. unfold prefix_sums. simpl. by rewrite length_map, length_seq. Qed.

Lemma prefix_sums_lookup (n k j : nat) :
  j < n - 1 →
  prefix_sums normal n k !! S j = Some (PyFloat (draws_sum normal k (S j))).
Proof.
  intros Hj. unfold prefix_sums. simpl.
  rewrite list_lookup_fmap, lookup_seq_lt by done. done.
Qed.

(** The list the loop of the Brownian cell builds is the list of the
    running sums of the draws. *)
Lemma brownian_path_value (k : nat) :
  brownian_path time normal k
    = Ok (prefix_sums normal (N time) k, (k + (N time - 1))%nat).
Proof.
  destruct (brownian_path_spec time normal k) as (W & E & Hlen & _ & H0 & Hstep).
  rewrite E. do 2 f_equal. simpl in *.
  assert (Hj : ∀ j, j < S (N time - 1) → W !! j = prefix_sums normal (N time) k !! j).
  { induction j as [|j IH]; intros Hlt; [by rewrite H0|].
    destruct (Hstep (S j)) as (w & Ew & ES); [lia|lia|].
    rewrite ES, prefix_sums_lookup by lia.
    replace (S j - 1)%nat with j in * by lia.
    rewrite IH in Ew by lia. rewrite draws_sum_S.
    destruct j as [|j].
    - injection Ew as <-. unfold py_add, draws_sum. simpl. by rewrite Nat.add_0_r.
    - rewrite prefix_sums_lookup in Ew by lia. injection Ew as <-. done. }
  apply list_eq. intros j. destruct (decide (j < S (N time - 1))) as [Hlt|Hge].
  - by apply Hj.
  - rewrite !lookup_ge_None_2; [done| |]; [rewrite length_prefix_sums|]; lia.
Qed.

Lemma length_projected_path (C : matrix F) (n k : nat) :
  length (projected_path normal C n k) = length C.
Proof. unfold projected_path. by rewrite length_insert, length_np_dot. Qed.

(** The five draws of a batch read five consecutive blocks of [N] values of
    the generator. *)
Lemma draw_batch_value (C : matrix F) (k : nat) :
  C ≠ [] →
  draw_batch time normal C k
    = Ok (map (λ n, projected_path normal C (N time) (k + n * N time)%nat) (seq 0 5),
          (k + 5 * N time)%nat).
Proof.
  intros HC. unfold draw_batch, range. cbn [seq Nat.sub for_loop].
  repeat (rewrite draw_path_ok by done; cbn [mbind outcome_bind fst snd app]).
  cbn [map]. unfold projected_path. do 2 f_equal.
  - repeat (f_equal; try (do 3 f_equal; lia)).
  - lia.
Qed.

End SamplingMore.

(** ** The exceptions of the estimator *)

Section EstimatorMore.
Context {F : Type} `{Arith F}.
Local Open Scope float_scope.

(** The estimator raises on the paths of length at most 3 and on no other,
    and what it raises is the division's exception. *)
Lemma hurst_estimate_raises (alpha : F) (X : list F) (e : exn) :
  hurst_estimate alpha X = Raise e ↔ e = ZeroDivisionError ∧ length X ≤ 3.
Proof.
  destruct (decide (length X ≤ 3)) as [Hshort|Hlong].
  - rewrite hurst_estimate_short by done. split.
    + by intros [= <-].
    + by intros [-> _].
  - rewrite hurst_estimate_value by lia. split; [done|]. intros [_ Hlen]. lia.
Qed.

Lemma hurst_L_loop_raises (alpha : F) (Xs : list (list F)) (L : list F) (e : exn) :
  for_loop Xs (λ X L, e ← hurst_estimate alpha X; Ok (L ++ [e])) L = Raise e
    ↔ e = ZeroDivisionError ∧ Exists (λ X, length X ≤ 3) Xs.
Proof.
  revert L. induction Xs as [|X Xs IH]; intros L.
  - simpl. split; [done|]. intros [_ Hex]. by apply Exists_nil in Hex.
  - simpl. rewrite Exists_cons.
    destruct (hurst_estimate alpha X) as [v|e'] eqn:E; simpl.
    + rewrite IH. split; [intros [-> Hex]; split; [done|by right]|].
      intros [-> [Hshort|Hex]]; [|done].
      assert (hurst_estimate alpha X = Raise ZeroDivisionError) as E'
        by by apply hurst_estimate_raises.
      congruence.
    + apply hurst_estimate_raises in E as [-> Hshort]. split.
      * intros [= <-]. split; [done|by left].
      * by intros [-> _].
Qed.

End EstimatorMore.

(** ** The estimator on straight lines *)

Section InvarianceLemmas.
Local Open Scope R_scope.









End InvarianceLemmas.




(** ** The dictionary of the per-alpha loop *)

Section CellMore.
Context {F : Type} `{Arith F} `{EqDecision F}.
Variable time : list F.
Variable normal : nat → F.
Variable cholesky : matrix F → option (matrix F).
Variable entry : F → F → F → F.

(** The batch of an iteration whose factorization returned [C]. *)
Lemma gen_unit_value (alpha : F) (M C : matrix F) (k : nat) :
  assemble time (entry alpha) = Ok M → cholesky M = Some C → C ≠ [] →
  gen_unit time normal cholesky (entry alpha) k
    = Ok (map (λ n, projected_path normal C (N time) (k + n * N time)) (seq 0 5),
          k + 5 * N time).
Proof.
  intros EM EC HC. unfold gen_unit. rewrite EM. simpl. rewrite EC. simpl.
  by apply draw_batch_value.
Qed.

(** A factor without rows: the assignment [Y[0] = 0] of the first draw
    raises. *)
Lemma gen_unit_no_rows (alpha : F) (M : matrix F) (k : nat) :
  assemble time (entry alpha) = Ok M → cholesky M = Some [] →
  gen_unit time normal cholesky (entry alpha) k = Raise IndexError.
Proof. intros EM EC. unfold gen_unit. rewrite EM. simpl. by rewrite EC. Qed.

Lemma assemble_length (e : F → F → F) (M : matrix F) :
  assemble time e = Ok M → length M = N time.
Proof.
  intros E. destruct (assemble_spec time e) as (M' & E' & [Hlen _] & _).
  rewrite E in E'. by injection E' as <-.
Qed.

(** The generator after a run in which every factorization succeeds. *)
Lemma gen_cell_draw_count (alphas : list F) (X : dict F) (k : nat) :
  Forall (factorization_succeeds time cholesky entry) alphas →
  (gen_cell time normal cholesky entry alphas X k).2
    = Ok (k + 5 * N time * length alphas).
Proof.
  intros Hall. revert X k. induction Hall as [|alpha alphas Hok Hall IH]; intros X k.
  - simpl. f_equal. lia.
  - destruct Hok as (M & C & EM & EC & HC). simpl.
    rewrite (gen_unit_value alpha M C k EM EC HC). rewrite IH. f_equal. simpl. lia.
Qed.

Lemma dict_set_keys_in (X : dict F) (key : F) (v : list (list F)) :
  key ∈ X.*1 → (dict_set X key v).*1 = X.*1.
Proof.
  induction X as [|[key' v'] X IH]; intros Hin.
  - by apply elem_of_nil in Hin.
  - simpl. destruct (decide (key' = key)) as [->|Hne]; [done|].
    simpl. f_equal. apply IH. simpl in Hin.
    by apply elem_of_cons in Hin as [->|Hin].
Qed.

Lemma dict_set_keys_out (X : dict F) (key : F) (v : list (list F)) :
  key ∉ X.*1 → (dict_set X key v).*1 = X.*1 ++ [key].
Proof.
  induction X as [|[key' v'] X IH]; intros Hout; [done|].
  simpl in Hout. apply not_elem_of_cons in Hout as [Hne Hout].
  simpl. rewrite decide_False by done. simpl. f_equal. by apply IH.
Qed.

Lemma dict_set_keys_nodup (X : dict F) (key : F) (v : list (list F)) :
  NoDup X.*1 → NoDup (dict_set X key v).*1.
Proof.
  intros Hnd. destruct (decide (key ∈ X.*1)) as [Hin|Hout].
  - by rewrite dict_set_keys_in.
  - rewrite dict_set_keys_out by done.
    apply NoDup_app. split; [done|]. split.
    + intros x Hx [->|Hin]%elem_of_cons; [done|]. by apply elem_of_nil in Hin.
    + apply NoDup_singleton.
Qed.

Lemma dict_get_keys (X : dict F) (key : F) :
  processed X key ↔ key ∈ X.*1.
Proof.
  unfold processed. induction X as [|[key' v'] X IH]; simpl.
  - split; [by intros [b Hb]|]. intros Hin. by apply elem_of_nil in Hin.
  - destruct (decide (key' = key)) as [->|Hne].
    + split; [intros _; left|]. intros _. by exists v'.
    + rewrite IH. split; [by right|]. intros [->|Hin]%elem_of_cons; done.
Qed.

(** However the run ends, the dictionary has one entry per distinct
    [alpha] met. *)
Lemma gen_cell_keys (alphas : list F) (X : dict F) (k : nat) :
  NoDup X.*1 → NoDup (gen_cell time normal cholesky entry alphas X k).1.*1.
Proof.
  revert X k. induction alphas as [|alpha alphas IH]; intros X k Hnd; [done|].
  simpl. destruct (gen_unit time normal cholesky (entry alpha) k) as [[Ys k']|e];
    [|done].
  apply IH. by apply dict_set_keys_nodup.
Qed.

Lemma gen_cell_keys_from (alphas : list F) (X : dict F) (k : nat) :
  (gen_cell time normal cholesky entry alphas X k).1.*1 ⊆ X.*1 ++ alphas.
Proof.
  intros a Ha. apply dict_get_keys in Ha. apply gen_cell_processed in Ha.
  apply elem_of_app. destruct Ha as [Ha|Ha]; [left; by apply dict_get_keys|by right].
Qed.

(** The batch of a key that the loop does not meet is left as it was. *)
Lemma gen_cell_other_key (alphas : list F) (X : dict F) (k : nat) (a : F) :
  a ∉ alphas →
  dict_get (gen_cell time normal cholesky entry alphas X k).1 a = dict_get X a.
Proof.
  revert X k. induction alphas as [|alpha alphas IH]; intros X k Hout; [done|].
  apply not_elem_of_cons in Hout as [Hne Hout].
  simpl. destruct (gen_unit time normal cholesky (entry alpha) k) as [[Ys k']|e];
    [|done].
  rewrite IH by done. by apply dict_get_set_ne.
Qed.

(** Every batch the loop stores holds five paths. *)
Lemma gen_unit_five (alpha : F) (k : nat) (r : list (list F) * nat) :
  gen_unit time normal cholesky (entry alpha) k = Ok r → length r.1 = 5.
Proof.
  unfold gen_unit.
  destruct (assemble time (entry alpha)) as [M|e]; [|done]. simpl.
  destruct (cholesky M) as [[|row C]|]; [done| |done]. simpl.
  rewrite draw_batch_value by done. by intros [= <-].
Qed.

Lemma gen_cell_five (alphas : list F) (X : dict F) (k : nat) :
  batches_of_five X →
  batches_of_five (gen_cell time normal cholesky entry alphas X k).1.
Proof.
  revert X k. induction alphas as [|alpha alphas IH]; intros X k H5; [done|].
  simpl. destruct (gen_unit time normal cholesky (entry alpha) k) as [[Ys k']|e] eqn:E;
    [|done].
  apply IH. apply (dict_set_values (λ v, length v = 5)); [|done].
  apply (gen_unit_five alpha k (Ys, k') E).
Qed.

(** With a factorizer that keeps the number of rows, every path the loop
    stores has as many entries as the grid. *)
Lemma gen_unit_lengths (alpha : F) (k : nat) (r : list (list F) * nat) :
  keeps_row_count cholesky →
  gen_unit time normal cholesky (entry alpha) k = Ok r →
  Forall (λ Y, length Y = N time) r.1.
Proof.
  intros Hrows. unfold gen_unit.
  destruct (assemble time (entry alpha)) as [M|e] eqn:EM; [|done]. simpl.
  destruct (cholesky M) as [C|] eqn:EC; [|done]. simpl.
  pose proof (Hrows M C EC) as HlenC. rewrite (assemble_length _ _ EM) in HlenC.
  destruct C as [|row C]; [done|].
  rewrite draw_batch_value by done. intros [= <-]. cbn [fst].
  repeat constructor; by rewrite length_projected_path.
Qed.

Lemma gen_cell_lengths (alphas : list F) (X : dict F) (k : nat) :
  keeps_row_count cholesky →
  paths_have_length (N time) X →
  paths_have_length (N time) (gen_cell time normal cholesky entry alphas X k).1.
Proof.
  intros Hrows. revert X k. induction alphas as [|alpha alphas IH]; intros X k Hlen;
    [done|].
  simpl. destruct (gen_unit time normal cholesky (entry alpha) k) as [[Ys k']|e] eqn:E;
    [|done].
  apply IH. apply (dict_set_values (Forall (λ Y, length Y = N time))); [|done].
  apply (gen_unit_lengths alpha k (Ys, k') Hrows E).
Qed.

Lemma dict_get_batch (P : list (list F) → Prop) (X : dict F) (a : F)
    (batch : list (list F)) :
  Forall (λ kv, P kv.2) X → dict_get X a = Ok batch → P batch.
Proof.
  induction 1 as [|[key v] X Hhd Htl IH]; [done|].
  simpl. destruct (decide (key = a)); [by intros [= <-]|done].
Qed.

End CellMore.

(** ** The estimator cell *)

Section EstimatorCell.
Context {F : Type} `{Arith F} `{EqDecision F}.
Variables np_mean np_std : list F → F.

(** The estimator cell over a concatenation of lists of [alpha]. *)
Lemma hurst_cell_app (X : dict F) (alphas1 alphas2 : list F) (out : list (F * (F * F))) :
  hurst_cell np_mean np_std X (alphas1 ++ alphas2) out
    = match hurst_cell np_mean np_std X alphas1 out with
      | (out1, Ok _) => hurst_cell np_mean np_std X alphas2 out1
      | (out1, Raise e) => (out1, Raise e)
      end.
Proof.
  revert out. induction alphas1 as [|alpha alphas1 IH]; intros out; [done|].
  simpl. destruct (dict_get X alpha ≫= _) as [r|e]; [apply IH|done].
Qed.

(** When every [alpha] has a batch of paths of length at least 4 the cell
    prints a line for every [alpha], in order. *)
Lemma hurst_cell_reports (n : nat) (X : dict F) (alphas : list F)
    (out : list (F * (F * F))) :
  4 ≤ n → paths_have_length n X → (∀ a, a ∈ alphas → processed X a) →
  ∃ lines, hurst_cell np_mean np_std X alphas out = (out ++ lines, Ok tt) ∧
           lines.*1 = alphas.
Proof.
  intros Hn Hlen. revert out. induction alphas as [|alpha alphas IH]; intros out Hproc.
  - exists []. by rewrite app_nil_r.
  - destruct (Hproc alpha) as [batch Eb]; [left|].
    assert (Hb : Forall (λ Y : list F, 4 ≤ length Y) batch).
    { pose proof (dict_get_batch (Forall (λ Y : list F, length Y = n)) X alpha batch Hlen Eb)
        as Hbn.
      eapply Forall_impl; [exact Hbn|]. simpl. intros Y ->. done. }
    destruct (hurst_L_every_path np_mean np_std alpha) as [Hok _].
    destruct (Hok batch Hb) as [_ Er].
    simpl. rewrite Eb. simpl. rewrite Er.
    destruct (IH (out ++ [(alpha, (np_mean (map (estimate_value alpha) batch),
                                   np_std (map (estimate_value alpha) batch)))]))
      as (lines & E & Hkeys).
    { intros a Ha. apply Hproc. by right. }
    eexists (_ :: lines). rewrite E, <- app_assoc. split; [done|].
    rewrite fmap_cons. by rewrite Hkeys.
Qed.

(** An [alpha] without batch ends the cell with [KeyError]. *)
Lemma hurst_cell_missing (X : dict F) (alpha : F) (rest : list F)
    (out : list (F * (F * F))) :
  ¬ processed X alpha →
  hurst_cell np_mean np_std X (alpha :: rest) out = (out, Raise KeyError).
Proof.
  intros Hmiss. simpl.
  assert (E : dict_get X alpha = Raise KeyError).
  { clear -Hmiss. unfold processed in Hmiss.
    induction X as [|[key v] X IH]; [done|]. simpl in *.
    destruct (decide (key = alpha)); [|by apply IH].
    exfalso. apply Hmiss. by exists v. }
  by rewrite E.
Qed.

(** A batch of five paths of length at most 3 ends the cell with
    [ZeroDivisionError]. *)
Lemma hurst_cell_short (n : nat) (X : dict F) (alpha : F) (rest : list F)
    (out : list (F * (F * F))) :
  n ≤ 3 → paths_have_length n X → batches_of_five X → processed X alpha →
  hurst_cell np_mean np_std X (alpha :: rest) out = (out, Raise ZeroDivisionError).
Proof.
  intros Hn Hlen H5 [batch Eb].
  pose proof (dict_get_batch (Forall (λ Y : list F, length Y = n)) X alpha batch Hlen Eb)
    as Hbn.
  pose proof (dict_get_batch (λ v, length v = 5) X alpha batch H5 Eb) as Hb5.
  destruct batch as [|Y batch]; [done|].
  apply Forall_cons in Hbn as [HY _].
  destruct (hurst_L_every_path np_mean np_std alpha) as [_ Hraise].
  destruct (Hraise [] Y batch) as [_ Er]; [done|lia|].
  simpl. rewrite Eb. simpl. simpl in Er. by rewrite Er.
Qed.

End EstimatorCell.

(** ** The generation cell followed by the estimator cell *)

Section CompositionLemmas.
Context {F : Type} `{Arith F} `{EqDecision F}.
Variable time : list F.
Variable normal : nat → F.
Variable cholesky : matrix F → option (matrix F).
Variable entry : F → F → F → F.

(** What the estimator cell finds in the dictionary after a run of the
    generation cell from the empty dictionary, with a factorizer that keeps
    the number of rows. *)
Lemma gen_cell_result_shape (alphas : list F) (k : nat) :
  keeps_row_count cholesky →
  paths_have_length (N time) (gen_cell time normal cholesky entry alphas [] k).1 ∧
  batches_of_five (gen_cell time normal cholesky entry alphas [] k).1.
Proof.
  intros Hrows. split.
  - apply gen_cell_lengths; [done|apply Forall_nil_2].
  - apply gen_cell_five, Forall_nil_2.
Qed.

End CompositionLemmas.

(** ** The concrete factorizer on a grid of four times *)

Section FactorizerLemmas.
Local Open Scope R_scope.

Lemma chol_rows_length (n : nat) (A Ls C : matrix R) :
  chol_rows n A Ls = Some C → length C = (length Ls + length A)%nat.
Proof.
  revert Ls. induction A as [|Arow A IH]; intros Ls.
  - simpl. intros [= <-]. lia.
  - cbn [chol_rows]. cbv zeta. destruct (Rlt_dec 0 _); [|done].
    intros E. apply IH in E. rewrite E, length_app. simpl. lia.
Qed.

Lemma cholesky_R_keeps_row_count : keeps_row_count cholesky_R.
Proof. intros M C E. apply chol_rows_length in E. simpl in E. lia. Qed.

(** One row of the factorization, from the entries left of the diagonal
    and the pivot. *)
Lemma chol_rows_step (n : nat) (Arow : list R) (A Ls : matrix R) (left : list R) (d : R) :
  chol_left Arow Ls [] = left →
  at_index Arow (length Ls) - dot_row left left = d →
  0 < d →
  chol_rows n (Arow :: A) Ls
    = chol_rows n A (Ls ++ [left ++ [sqrt d] ++ replicate (n - S (length Ls)) 0]).
Proof.
  intros El Ed Hd. cbn [chol_rows]. cbv zeta. rewrite El, Ed.
  destruct (Rlt_dec 0 d); [done|lra].
Qed.

Lemma chol_rows_stop (n : nat) (Arow : list R) (A Ls : matrix R) (left : list R) :
  chol_left Arow Ls [] = left →
  at_index Arow (length Ls) - dot_row left left <= 0 →
  chol_rows n (Arow :: A) Ls = None.
Proof.
  intros El Hd. cbn [chol_rows]. cbv zeta. rewrite El.
  destruct (Rlt_dec 0 _); [lra|done].
Qed.

Lemma fbm_mat_cov_half_time4 :
  fbm_mat_cov time4 half = Ok [[1; 1; 1; 1]; [1; 2; 2; 2]; [1; 2; 3; 3]; [1; 2; 3; 4]].
Proof.
  unfold fbm_mat_cov, time4.
  assert (E : ∀ (t0 t1 t2 t3 : R) (e : R → R → R),
             assemble [t0; t1; t2; t3] e
             = Ok [[e t0 t0; e t1 t0; e t2 t0; e t3 t0];
                   [e t1 t0; e t1 t1; e t2 t1; e t3 t1];
                   [e t2 t0; e t2 t1; e t2 t2; e t3 t2];
                   [e t3 t0; e t3 t1; e t3 t2; e t3 t3]]) by reflexivity.
  rewrite E. rewrite !fbm_entry_half by lra.
  unfold Rmin. repeat f_equal; destruct (Rle_dec _ _); lra.
Qed.

Lemma cholesky_R_time4 :
  cholesky_R [[1; 1; 1; 1]; [1; 2; 2; 2]; [1; 2; 3; 3]; [1; 2; 3; 4]]
    = Some [[1; 0; 0; 0]; [1; 1; 0; 0]; [1; 1; 1; 0]; [1; 1; 1; 1]].
Proof.
  unfold cholesky_R. cbn [length].
  rewrite (chol_rows_step 4 _ _ _ [] 1); [|done|cbn; lra|lra].
  rewrite sqrt_1. cbn [app replicate Nat.sub length].
  rewrite (chol_rows_step 4 _ _ _ [1] 1);
    [|unfold chol_left; cbn; f_equal; lra|cbn; lra|lra].
  rewrite sqrt_1. cbn [app replicate Nat.sub length].
  rewrite (chol_rows_step 4 _ _ _ [1; 1] 1);
    [|unfold chol_left; cbn; repeat f_equal; lra|cbn; lra|lra].
  rewrite sqrt_1. cbn [app replicate Nat.sub length].
  rewrite (chol_rows_step 4 _ _ _ [1; 1; 1] 1);
    [|unfold chol_left; cbn; repeat f_equal; lra|cbn; lra|lra].
  rewrite sqrt_1. reflexivity.
Qed.

Lemma factorization_succeeds_half_time4 :
  factorization_succeeds time4 cholesky_R fbm_entry half.
Proof.
  eexists _, _. split; [apply fbm_mat_cov_half_time4|].
  split; [apply cholesky_R_time4|done].
Qed.

End FactorizerLemmas.

Section FactorizerFailure.
Local Open Scope R_scope.

Lemma fbm_mat_cov_one_time4 :
  fbm_mat_cov time4 1
    = Ok [[1; 2; 3; 4]; [2; 4; 6; 8]; [3; 6; 9; 12]; [4; 8; 12; 16]].
Proof.
  unfold fbm_mat_cov, time4.
  assert (E : ∀ (t0 t1 t2 t3 : R) (e : R → R → R),
             assemble [t0; t1; t2; t3] e
             = Ok [[e t0 t0; e t1 t0; e t2 t0; e t3 t0];
                   [e t1 t0; e t1 t1; e t2 t1; e t3 t1];
                   [e t2 t0; e t2 t1; e t2 t2; e t3 t2];
                   [e t3 t0; e t3 t1; e t3 t2; e t3 t3]]) by reflexivity.
  rewrite E. unfold fbm_entry. simpl. replace (2 * 1) with 2 by lra.
  rewrite !Rpow_abs_2, !Rpow_2 by lra.
  repeat f_equal; lra.
Qed.

Lemma factorization_fails_one_time4 : factorization_fails time4 cholesky_R fbm_entry 1.
Proof.
  eexists. split; [apply fbm_mat_cov_one_time4|].
  unfold cholesky_R. cbn [length].
  rewrite (chol_rows_step 4 _ _ _ [] 1); [|done|cbn; lra|lra].
  rewrite sqrt_1. cbn [app replicate Nat.sub length].
  apply (chol_rows_stop 4 _ _ _ [2]); [unfold chol_left; cbn; f_equal; lra|cbn; lra].
Qed.

End FactorizerFailure.

(** ** The sort of the alphas cell *)

Section AlphasLemmas.
Local Open Scope R_scope.

Lemma py_sort_five (x y z w : R) :
  x < / 2 → y < / 2 → / 2 <= z → / 2 <= w →
  py_sort Rlt_bool [x; y; / 2; z; w] = [lo x y; hi x y; / 2; lo z w; hi z w].
Proof.
  intros Hx Hy Hz Hw. unfold py_sort, lo, hi, Rlt_bool. cbn [foldl py_insert].
  repeat (real_case; cbn [py_insert]; try lra); reflexivity.
Qed.

End AlphasLemmas.

(** ** The exponent zero *)

Section ZeroAlpha.
Local Open Scope R_scope.

Lemma xpow_zero (x : xreal) : xpow x (Fin (2 * 0)) = Fin 1.
Proof. unfold xpow. destruct (Req_dec_T (2 * 0) 0); [done|lra]. Qed.

End ZeroAlpha.

(** ** Rows that end with zeros *)

Section TriangularLemmas.
Local Open Scope R_scope.

Lemma dot_row_foldl (acc : R) (row z : list R) :
  foldl (λ acc p, fadd acc (fmul p.1 p.2)) acc (zip row z) = acc + dot_row row z.
Proof.
  unfold dot_row. cbn [of_int R_arith]. generalize (zip row z) as l. intros l.
  revert acc. induction l as [|p l IH]; intros acc; cbn [foldl].
  - lra.
  - rewrite IH, (IH (fadd 0 (fmul p.1 p.2))). simpl. lra.
Qed.

Lemma dot_row_cons (c x : R) (row z : list R) :
  dot_row (c :: row) (x :: z) = c * x + dot_row row z.
Proof.
  unfold dot_row at 1. cbn [zip zip_with foldl]. rewrite dot_row_foldl. simpl. lra.
Qed.

Lemma dot_row_zeros (m : nat) (z : list R) : dot_row (replicate m 0) z = 0.
Proof.
  revert z. induction m as [|m IH]; intros z; [done|].
  destruct z as [|x z]; [done|].
  cbn [replicate]. rewrite dot_row_cons, IH. lra.
Qed.

(** Zeros at the end of a row add nothing to the product, and the entries
    of the vector they meet are not read into the result. *)
Lemma dot_row_trailing_zeros (row z : list R) (m : nat) :
  dot_row (row ++ replicate m 0) z = dot_row row (take (length row) z).
Proof.
  revert z. induction row as [|c row IH]; intros z.
  - cbn [app length]. rewrite take_0, dot_row_zeros. done.
  - destruct z as [|x z]; [done|].
    cbn [app length take]. rewrite !dot_row_cons. f_equal. apply IH.
Qed.

Lemma take_normal_vec (normal : nat → R) (k n m : nat) :
  (m ≤ n)%nat → take m (normal_vec normal k n) = normal_vec normal k m.
Proof.
  intros Hm. unfold normal_vec. rewrite <- fmap_take. f_equal.
  rewrite take_seq. f_equal. lia.
Qed.

End TriangularLemmas.

(** * Further properties of the cells *)


(** X2: for every grid, every [alpha] and every arithmetic, the
    Riemann-Liouville assembly returns a square array; at a position
    [(i, j)] of the grid with [j ≤ i] its entry is the estimate [quad] returns
    for the integrand [(t_i − x)^(α − 0.5) · (t_j − x)^(α − 0.5)] from 0 to
    [t_j], and the mirrored position [(j, i)] holds the same value. *)
Theorem rl_covariance_entries {F : Type} `{Arith F} (time : list F)
    (quad : (F → F) → F → F → F * F) (alpha : F) (i j : nat) (ti tj : F) :
  time !! i = Some ti → time !! j = Some tj → j ≤ i →
  ∃ M, rl_mat_cov time quad alpha = Ok M ∧ square (N time) M ∧
       mat_lookup M i j
         = Some (quad (λ x, fmul (fpow (fsub ti x) (fsub alpha half))
                                 (fpow (fsub tj x) (fsub alpha half)))
                      (of_int 0) tj).1 ∧
       mat_lookup M j i = mat_lookup M i j.
Proof.
  intros Ei Ej Hji.
  destruct (assemble_spec time (rl_entry quad alpha)) as (M & E & Hsq & Hval).
  exists M. split; [exact E|]. split; [exact Hsq|].
  pose proof (lookup_lt_Some _ _ _ Ei) as Hi.
  pose proof (lookup_lt_Some _ _ _ Ej) as Hj.
  split.
  - rewrite (Hval i j Hi Hj).
    replace (i `max` j) with i by lia. replace (i `min` j) with j by lia.
    unfold assigned, at_index. by rewrite Ei, Ej.
  - by apply (assemble_symmetric time (rl_entry quad alpha)).
Qed.

Lemma rl_covariance_entries_witness :
  time0 !! 1 = Some 2%R ∧ time0 !! 0 = Some 1%R ∧ 0 ≤ 1 ∧
  ∃ M, rl_mat_cov time0 midpoint_rule half = Ok M ∧ square (N time0) M ∧
       mat_lookup M 1 0
         = Some (midpoint_rule (λ x : R, fmul (fpow (fsub 2%R x) (fsub half half))
                                              (fpow (fsub 1%R x) (fsub half half)))
                   (of_int 0) 1%R).1 ∧
       mat_lookup M 0 1 = mat_lookup M 1 0.
Proof.
  split; [reflexivity|]. split; [reflexivity|]. split; [lia|].
  apply (rl_covariance_entries time0 midpoint_rule half 1 0 2%R 1%R); (reflexivity || lia).
Defined.



(** X4: with the literal 0.5 for [alpha] the exponent [alpha − 0.5] is zero
    and the integrand of the Riemann-Liouville kernel is the constant 1,
    whatever the times (a power zero is 1 also of an infinity or of nan); so
    with a [quad] that returns [b] for the constant 1 from 0 to [b], the
    entry at every position [(i, j)] of the grid is the time of the smaller
    of the two indices. *)
Theorem rl_half_holds_smaller_index_time (time : list xreal)
    (quad : (xreal → xreal) → xreal → xreal → xreal * xreal) (i j : nat)
    (ti tj : xreal) :
  (∀ f b, (∀ x, f x = Fin 1) → (quad f (Fin 0) b).1 = b) →
  time !! i = Some ti → time !! j = Some tj →
  ∃ M, rl_mat_cov time quad half = Ok M ∧
       mat_lookup M i j = time !! (i `min` j).
Proof.
  intros Hquad Ei Ej.
  destruct (assemble_spec time (rl_entry quad half)) as (M & E & _ & Hval).
  exists M. split; [exact E|].
  pose proof (lookup_lt_Some _ _ _ Ei) as Hi.
  pose proof (lookup_lt_Some _ _ _ Ej) as Hj.
  rewrite (Hval i j Hi Hj). unfold assigned, rl_entry.
  change (of_int 0 : xreal) with (Fin 0).
  rewrite Hquad.
  - unfold at_index. destruct (time !! (i `min` j)) eqn:Emin; [done|].
    apply lookup_ge_None in Emin. lia.
  - intros x. cbn [fmul fsub fpow half xreal_arith xsub xadd xneg].
    replace (/ 2 + - / 2)%R with 0%R by lra.
    assert (Hp : ∀ y, xpow y (Fin 0) = Fin 1).
    { intros y. unfold xpow. destruct (Req_dec_T 0 0); [done|lra]. }
    rewrite !Hp. simpl. f_equal. lra.
Qed.

Lemma rl_half_holds_smaller_index_time_witness :
  (∀ f b, (∀ x, f x = Fin 1) → (midpoint_rule f (Fin 0) b).1 = b) ∧
  map Fin time0 !! 1 = Some (Fin 2) ∧ map Fin time0 !! 0 = Some (Fin 1) ∧
  ∃ M, rl_mat_cov (map Fin time0) midpoint_rule half = Ok M ∧
       mat_lookup M 1 0 = map Fin time0 !! (1 `min` 0).
Proof.
  split; [exact midpoint_rule_constant_one|]. split; [reflexivity|]. split; [reflexivity|].
  exact (rl_half_holds_smaller_index_time (map Fin time0) midpoint_rule 1 0 (Fin 2) (Fin 1)
           midpoint_rule_constant_one eq_refl eq_refl).
Defined.

(** X5: on a grid of at least one time, the Brownian list is
    [0, z_k, z_k + z_(k+1), ...]: the integer 0, then the running sums, added
    from zero from left to right, of [N − 1] consecutive draws, [N] entries
    in all; the cell's five paths read five consecutive blocks of [N − 1]
    draws, path [n] from the draw [k + n·(N − 1)] on, and leave the generator
    at [k + 5·(N − 1)]. *)
Theorem brownian_cell_running_sums {F : Type} `{Arith F} (time : list F)
    (normal : nat → F) (k : nat) :
  1 ≤ N time →
  brownian_path time normal k
    = Ok (prefix_sums normal (N time) k, k + (N time - 1)) ∧
  brownian_cell time normal k
    = Ok (map (λ n, prefix_sums normal (N time) (k + n * (N time - 1))) (seq 0 5),
          k + 5 * (N time - 1)) ∧
  length (prefix_sums normal (N time) k) = N time ∧
  (∀ i, i < N time - 1 →
     prefix_sums normal (N time) k !! S i
       = Some (PyFloat (foldl (λ acc j, fadd acc (normal j)) (of_int 0) (seq k (S i))))).
Proof.
  intros HN. split; [apply brownian_path_value|]. split; [|split].
  - unfold brownian_cell, range. cbn [seq Nat.sub for_loop].
    repeat (rewrite brownian_path_value; cbn [mbind outcome_bind fst snd app]).
    cbn [map]. do 2 f_equal.
    + repeat (f_equal; try (f_equal; lia)).
    + lia.
  - rewrite length_prefix_sums. lia.
  - intros i Hi. by apply prefix_sums_lookup.
Qed.

Lemma brownian_cell_running_sums_witness :
  1 ≤ N time0 ∧
  brownian_path time0 normal0 3 = Ok (prefix_sums normal0 (N time0) 3, 3 + (N time0 - 1)) ∧
  brownian_cell time0 normal0 3
    = Ok (map (λ n, prefix_sums normal0 (N time0) (3 + n * (N time0 - 1))) (seq 0 5),
          3 + 5 * (N time0 - 1)) ∧
  length (prefix_sums normal0 (N time0) 3) = N time0.
Proof.
  assert (HN : 1 ≤ N time0) by (unfold N, time0; simpl; lia).
  destruct (brownian_cell_running_sums time0 normal0 3 HN) as (Ep & Ec & Hlen & _).
  split; [exact HN|]. split; [exact Ep|]. split; [exact Ec|exact Hlen].
Defined.

(** X6: for a factor with at least one row, the five paths of a batch are
    the projections through the factor of five consecutive blocks of [N]
    draws, path [n] from the block that starts at [k + n·N], each with index
    0 overwritten by zero; every path has as many entries as the factor has
    rows, and the generator is left at [k + 5·N]. *)
Theorem batch_draws_disjoint_blocks {F : Type} `{Arith F} (time : list F)
    (normal : nat → F) (C : matrix F) (k : nat) :
  C ≠ [] →
  draw_batch time normal C k
    = Ok (map (λ n, projected_path normal C (N time) (k + n * N time)) (seq 0 5),
          k + 5 * N time) ∧
  ∀ n, length (projected_path normal C (N time) (k + n * N time)) = length C.
Proof.
  intros HC. split; [by apply draw_batch_value|].
  intros n. apply length_projected_path.
Qed.

Lemma batch_draws_disjoint_blocks_witness :
  [[1; 0]; [1; 1]]%R ≠ [] ∧
  draw_batch time0 normal0 [[1; 0]; [1; 1]]%R 3
    = Ok (map (λ n, projected_path normal0 [[1; 0]; [1; 1]]%R (N time0) (3 + n * N time0))
              (seq 0 5),
          3 + 5 * N time0).
Proof.
  assert (HC : [[1; 0]; [1; 1]]%R ≠ []) by discriminate.
  split; [exact HC|].
  exact (proj1 (batch_draws_disjoint_blocks time0 normal0 [[1; 0]; [1; 1]]%R 3 HC)).
Defined.

(** X7: whatever the arithmetic, the estimator raises on a path exactly
    when the path has at most 3 entries, and the exception is then
    [ZeroDivisionError] (never [IndexError]: no index of the two loops is out
    of range); the report of a batch raises exactly when the batch holds such
    a path. *)
Theorem estimator_raises_only_on_short_paths {F : Type} `{Arith F}
    (np_mean np_std : list F → F) (alpha : F) (e : exn) :
  (∀ X, hurst_estimate alpha X = Raise e ↔ e = ZeroDivisionError ∧ length X ≤ 3) ∧
  (∀ Xs, hurst_report np_mean np_std alpha Xs = Raise e
         ↔ e = ZeroDivisionError ∧ Exists (λ X, length X ≤ 3) Xs).
Proof.
  split; [intros X; apply hurst_estimate_raises|].
  intros Xs. unfold hurst_report, hurst_L.
  rewrite <- (hurst_L_loop_raises alpha Xs [] e).
  destruct (for_loop Xs _ []); simpl; [split; discriminate|].
  split; intros [= <-]; reflexivity.
Qed.



(** X12: on the empty grid ([N = 0]) the assembly returns the empty
    array; when the factorizer returns the empty factor for it, the first
    iteration of the per-alpha loop raises [IndexError] at [Y[0] = 0] and the
    dictionary is left unchanged; the Brownian list is [[0]], of length 1,
    and no draw is made. *)
Theorem empty_grid_raises_index_error {F : Type} `{Arith F} `{EqDecision F}
    (time : list F) (normal : nat → F) (cholesky : matrix F → option (matrix F))
    (entry : F → F → F → F) (alpha : F) (rest : list F) (X : dict F) (k : nat) :
  N time = 0 → cholesky [] = Some [] →
  assemble time (entry alpha) = Ok [] ∧
  gen_cell time normal cholesky entry (alpha :: rest) X k = (X, Raise IndexError) ∧
  brownian_path time normal k = Ok ([PyInt 0], k).
Proof.
  intros HN HC. destruct time as [|t time]; [|done].
  split; [done|]. split; [|done].
  simpl. by rewrite (gen_unit_no_rows [] normal cholesky entry alpha [] k).
Qed.

Lemma empty_grid_raises_index_error_witness :
  N ([] : list R) = 0 ∧ cholesky_R [] = Some [] ∧
  assemble ([] : list R) (fbm_entry half) = Ok [] ∧
  gen_cell [] normal0 cholesky_R fbm_entry [half; 1%R] [] 0 = ([], Raise IndexError) ∧
  brownian_path [] normal0 0 = Ok ([PyInt 0], 0).
Proof.
  split; [reflexivity|]. split; [reflexivity|].
  exact (empty_grid_raises_index_error [] normal0 cholesky_R fbm_entry half [1%R] [] 0
           eq_refl eq_refl).
Defined.

(** X13: when every factorization succeeds the per-alpha loop ends
    normally with the generator advanced by [5·N] draws for each value of the
    list, repeated values included; the keys of the dictionary are the values
    of the list, and the dictionary has at most as many entries as the
    list. *)
Theorem successful_run_stores_every_alpha {F : Type} `{Arith F} `{EqDecision F}
    (time : list F) (normal : nat → F) (cholesky : matrix F → option (matrix F))
    (entry : F → F → F → F) (alphas : list F) (k : nat) :
  Forall (factorization_succeeds time cholesky entry) alphas →
  ∃ X, gen_cell time normal cholesky entry alphas [] k
         = (X, Ok (k + 5 * N time * length alphas)) ∧
       (∀ a, processed X a ↔ a ∈ alphas) ∧
       length X ≤ length alphas.
Proof.
  intros Hall.
  pose proof (gen_cell_draw_count time normal cholesky entry alphas [] k Hall) as Ek.
  destruct (gen_cell_all_succeed time normal cholesky entry alphas [] k Hall)
    as (X & k' & E & Hproc).
  rewrite E in Ek. simpl in Ek. injection Ek as ->.
  exists X. split; [exact E|]. split.
  - intros a. split.
    + intros Ha. destruct (gen_cell_processed time normal cholesky entry alphas [] k a)
        as [[b Hb]|Hin]; [by rewrite E|done|done].
    + intros Ha. apply Hproc. by right.
  - pose proof (gen_cell_keys time normal cholesky entry alphas [] k NoDup_nil_2) as Hnd.
    pose proof (gen_cell_keys_from time normal cholesky entry alphas [] k) as Hsub.
    rewrite E in Hnd, Hsub. simpl in Hnd, Hsub.
    rewrite <- (length_fmap fst X). by apply submseteq_length, NoDup_submseteq.
Qed.

Lemma successful_run_stores_every_alpha_witness :
  Forall (factorization_succeeds time0 cholesky_R fbm_entry) [half; half] ∧
  ∃ X, gen_cell time0 normal0 cholesky_R fbm_entry [half; half] [] 3
         = (X, Ok (3 + 5 * N time0 * length [half; half])) ∧
       (∀ a, processed X a ↔ a ∈ [half; half]) ∧
       length X ≤ length [half; half].
Proof.
  assert (Hall : Forall (factorization_succeeds time0 cholesky_R fbm_entry) [half; half])
    by (repeat constructor; apply factorization_succeeds_half).
  split; [exact Hall|].
  exact (successful_run_stores_every_alpha time0 normal0 cholesky_R fbm_entry
           [half; half] 3 Hall).
Defined.

(** X14: however the per-alpha loop ends, the dictionary it leaves has no
    key twice, every key is a value of the list, and every batch holds five
    paths; with a factorizer that keeps the number of rows every stored path
    has [N] entries. *)
Theorem dictionary_holds_one_batch_per_alpha {F : Type} `{Arith F} `{EqDecision F}
    (time : list F) (normal : nat → F) (cholesky : matrix F → option (matrix F))
    (entry : F → F → F → F) (alphas : list F) (k : nat) :
  NoDup (gen_cell time normal cholesky entry alphas [] k).1.*1 ∧
  (gen_cell time normal cholesky entry alphas [] k).1.*1 ⊆ alphas ∧
  batches_of_five (gen_cell time normal cholesky entry alphas [] k).1 ∧
  (keeps_row_count cholesky →
   paths_have_length (N time) (gen_cell time normal cholesky entry alphas [] k).1).
Proof.
  split; [apply gen_cell_keys, NoDup_nil_2|].
  split; [apply (gen_cell_keys_from time normal cholesky entry alphas [] k)|].
  split; [apply gen_cell_five, Forall_nil_2|].
  intros Hrows. apply gen_cell_lengths; [done|apply Forall_nil_2].
Qed.

(** X15: the batch stored under an [alpha] is the one of its last
    occurrence in the list: when the factorizations before that occurrence
    succeed and its own returns the factor [C], the batch under [alpha] is
    made of the five projections through [C] of the blocks of draws that
    start at [k + 5·N·p + n·N], [p] being the position of the occurrence,
    whatever happens for the values after it. *)
Theorem stored_batch_is_of_last_occurrence {F : Type} `{Arith F} `{EqDecision F}
    (time : list F) (normal : nat → F) (cholesky : matrix F → option (matrix F))
    (entry : F → F → F → F) (alphas1 alphas2 : list F) (alpha : F) (M C : matrix F)
    (k : nat) :
  Forall (factorization_succeeds time cholesky entry) alphas1 →
  assemble time (entry alpha) = Ok M → cholesky M = Some C → C ≠ [] →
  alpha ∉ alphas2 →
  dict_get (gen_cell time normal cholesky entry (alphas1 ++ alpha :: alphas2) [] k).1 alpha
    = Ok (map (λ n, projected_path normal C (N time)
                      (k + 5 * N time * length alphas1 + n * N time))
              (seq 0 5)).
Proof.
  intros Hall EM EC HC Hout.
  pose proof (gen_cell_draw_count time normal cholesky entry alphas1 [] k Hall) as Ek.
  rewrite gen_cell_app.
  destruct (gen_cell time normal cholesky entry alphas1 [] k) as [X1 r]. simpl in Ek.
  subst r. cbn [gen_cell].
  rewrite (gen_unit_value time normal cholesky entry alpha M C _ EM EC HC).
  rewrite gen_cell_other_key by done. apply dict_get_set_eq.
Qed.

Lemma stored_batch_is_of_last_occurrence_witness :
  Forall (factorization_succeeds time0 cholesky_R fbm_entry) [half] ∧
  assemble time0 (fbm_entry half) = Ok [[1; 1]; [1; 2]]%R ∧
  cholesky_R [[1; 1]; [1; 2]]%R = Some [[1; 0]; [1; 1]]%R ∧
  ([[1; 0]; [1; 1]]%R ≠ []) ∧ ((half : R) ∉ [1%R]) ∧
  dict_get (gen_cell time0 normal0 cholesky_R fbm_entry ([half] ++ half :: [1%R]) [] 0).1 half
    = Ok (map (λ n, projected_path normal0 [[1; 0]; [1; 1]]%R (N time0)
                      (0 + 5 * N time0 * length [half] + n * N time0))
              (seq 0 5)).
Proof.
  assert (Hall : Forall (factorization_succeeds time0 cholesky_R fbm_entry) [half])
    by (repeat constructor; apply factorization_succeeds_half).
  assert (HC : [[1; 0]; [1; 1]]%R ≠ []) by discriminate.
  assert (Hout : half ∉ [1%R]).
  { intros [E|Hin]%elem_of_cons; [simpl in E; lra|by apply elem_of_nil in Hin]. }
  split; [exact Hall|]. split; [exact fbm_mat_cov_half|].
  split; [exact cholesky_R_regular|]. split; [exact HC|]. split; [exact Hout|].
  exact (stored_batch_is_of_last_occurrence time0 normal0 cholesky_R fbm_entry
           [half] [1%R] half _ _ 0 Hall fbm_mat_cov_half cholesky_R_regular HC Hout).
Defined.

(** X16: on a grid of at least 4 times, with a factorizer that keeps the
    number of rows, after a generation cell in which every factorization
    succeeded the estimator cell ends normally and prints one line per value
    of the list, in the order of the list. *)
Theorem estimator_cell_reports_every_alpha {F : Type} `{Arith F} `{EqDecision F}
    (np_mean np_std : list F → F) (time : list F) (normal : nat → F)
    (cholesky : matrix F → option (matrix F)) (entry : F → F → F → F)
    (alphas : list F) (k : nat) :
  keeps_row_count cholesky → 4 ≤ N time →
  Forall (factorization_succeeds time cholesky entry) alphas →
  ∃ X k' out,
    gen_cell time normal cholesky entry alphas [] k = (X, Ok k') ∧
    hurst_cell np_mean np_std X alphas [] = (out, Ok tt) ∧
    out.*1 = alphas.
Proof.
  intros Hrows HN Hall.
  destruct (gen_cell_result_shape time normal cholesky entry alphas k Hrows) as [Hlen _].
  destruct (gen_cell_all_succeed time normal cholesky entry alphas [] k Hall)
    as (X & k' & E & Hproc).
  rewrite E in Hlen. simpl in Hlen.
  destruct (hurst_cell_reports np_mean np_std (N time) X alphas [] HN Hlen)
    as (lines & Eout & Hkeys).
  { intros a Ha. apply Hproc. by right. }
  exists X, k', lines. done.
Qed.

Lemma estimator_cell_reports_every_alpha_witness :
  keeps_row_count cholesky_R ∧ 4 ≤ N time4 ∧
  Forall (factorization_succeeds time4 cholesky_R fbm_entry) [half] ∧
  ∃ X k' out,
    gen_cell time4 normal0 cholesky_R fbm_entry [half] [] 0 = (X, Ok k') ∧
    hurst_cell (λ _, 0%R) (λ _, 0%R) X [half] [] = (out, Ok tt) ∧
    out.*1 = [half].
Proof.
  assert (HN : 4 ≤ N time4) by (unfold N, time4; simpl; lia).
  assert (Hall : Forall (factorization_succeeds time4 cholesky_R fbm_entry) [half])
    by (repeat constructor; apply factorization_succeeds_half_time4).
  split; [exact cholesky_R_keeps_row_count|]. split; [exact HN|]. split; [exact Hall|].
  exact (estimator_cell_reports_every_alpha (λ _, 0%R) (λ _, 0%R) time4 normal0 cholesky_R
           fbm_entry [half] 0 cholesky_R_keeps_row_count HN Hall).
Defined.

(** X17: on a grid of 1 to 3 times, with a factorizer that keeps the
    number of rows, the generation cell succeeds and the estimator cell then
    raises [ZeroDivisionError] on the first [alpha], having printed
    nothing. *)
Theorem short_grid_estimator_divides_by_zero {F : Type} `{Arith F} `{EqDecision F}
    (np_mean np_std : list F → F) (time : list F) (normal : nat → F)
    (cholesky : matrix F → option (matrix F)) (entry : F → F → F → F)
    (alpha : F) (rest : list F) (k : nat) :
  keeps_row_count cholesky → N time ≤ 3 →
  Forall (factorization_succeeds time cholesky entry) (alpha :: rest) →
  ∃ X k',
    gen_cell time normal cholesky entry (alpha :: rest) [] k = (X, Ok k') ∧
    hurst_cell np_mean np_std X (alpha :: rest) [] = ([], Raise ZeroDivisionError).
Proof.
  intros Hrows HN Hall.
  destruct (gen_cell_result_shape time normal cholesky entry (alpha :: rest) k Hrows)
    as [Hlen H5].
  destruct (gen_cell_all_succeed time normal cholesky entry (alpha :: rest) [] k Hall)
    as (X & k' & E & Hproc).
  rewrite E in Hlen, H5. simpl in Hlen, H5.
  exists X, k'. split; [exact E|].
  apply (hurst_cell_short np_mean np_std (N time)); try done.
  apply Hproc. right. left.
Qed.

Lemma short_grid_estimator_divides_by_zero_witness :
  keeps_row_count cholesky_R ∧ N time0 ≤ 3 ∧
  Forall (factorization_succeeds time0 cholesky_R fbm_entry) [half] ∧
  ∃ X k',
    gen_cell time0 normal0 cholesky_R fbm_entry [half] [] 0 = (X, Ok k') ∧
    hurst_cell (λ _, 0%R) (λ _, 0%R) X [half] [] = ([], Raise ZeroDivisionError).
Proof.
  assert (HN : N time0 ≤ 3) by (unfold N, time0; simpl; lia).
  assert (Hall : Forall (factorization_succeeds time0 cholesky_R fbm_entry) [half])
    by (repeat constructor; apply factorization_succeeds_half).
  split; [exact cholesky_R_keeps_row_count|]. split; [exact HN|]. split; [exact Hall|].
  exact (short_grid_estimator_divides_by_zero (λ _, 0%R) (λ _, 0%R) time0 normal0
           cholesky_R fbm_entry half [] 0 cholesky_R_keeps_row_count HN Hall).
Defined.

(** X18: on a grid of at least 4 times, with a factorizer that keeps the
    number of rows, when the generation cell stopped on the failing
    factorization of an [alpha] that does not occur earlier in the list, the
    estimator cell run on what it left prints the lines of the values before
    that [alpha] and raises [KeyError] at it. *)
Theorem estimator_cell_key_error_after_failure {F : Type} `{Arith F} `{EqDecision F}
    (np_mean np_std : list F → F) (time : list F) (normal : nat → F)
    (cholesky : matrix F → option (matrix F)) (entry : F → F → F → F)
    (alphas1 alphas2 : list F) (alpha : F) (k : nat) :
  keeps_row_count cholesky → 4 ≤ N time →
  Forall (factorization_succeeds time cholesky entry) alphas1 →
  factorization_fails time cholesky entry alpha → alpha ∉ alphas1 →
  ∃ X out,
    gen_cell time normal cholesky entry (alphas1 ++ alpha :: alphas2) [] k
      = (X, Raise LinAlgError) ∧
    hurst_cell np_mean np_std X (alphas1 ++ alpha :: alphas2) [] = (out, Raise KeyError) ∧
    out.*1 = alphas1.
Proof.
  intros Hrows HN Hall Hfail Hout.
  destruct (gen_cell_first_failure time normal cholesky entry alphas1 alphas2 alpha [] k
              Hall Hfail) as (X & k1 & E1 & E & Hkeys).
  destruct (gen_cell_result_shape time normal cholesky entry alphas1 k Hrows) as [Hlen _].
  destruct (gen_cell_all_succeed time normal cholesky entry alphas1 [] k Hall)
    as (X' & k' & E' & Hproc).
  rewrite E1 in E', Hlen. injection E' as <- <-. simpl in Hlen.
  destruct (hurst_cell_reports np_mean np_std (N time) X alphas1 [] HN Hlen)
    as (lines & Eout & Hlines).
  { intros a Ha. apply Hproc. by right. }
  exists X, lines. split; [exact E|]. split; [|exact Hlines].
  rewrite hurst_cell_app, Eout. apply hurst_cell_missing.
  intros Hp. destruct (Hkeys alpha Hp) as [[b Hb]|Hin]; done.
Qed.

Lemma estimator_cell_key_error_after_failure_witness :
  keeps_row_count cholesky_R ∧ 4 ≤ N time4 ∧
  Forall (factorization_succeeds time4 cholesky_R fbm_entry) [half] ∧
  factorization_fails time4 cholesky_R fbm_entry 1%R ∧ (1%R ∉ [half : R]) ∧
  ∃ X out,
    gen_cell time4 normal0 cholesky_R fbm_entry ([half] ++ 1%R :: [half]) [] 0
      = (X, Raise LinAlgError) ∧
    hurst_cell (λ _, 0%R) (λ _, 0%R) X ([half] ++ 1%R :: [half]) []
      = (out, Raise KeyError) ∧
    out.*1 = [half].
Proof.
  assert (HN : 4 ≤ N time4) by (unfold N, time4; simpl; lia).
  assert (Hall : Forall (factorization_succeeds time4 cholesky_R fbm_entry) [half])
    by (repeat constructor; apply factorization_succeeds_half_time4).
  assert (Hout : 1%R ∉ [half : R]).
  { intros [E|Hin]%elem_of_cons; [simpl in E; lra|by apply elem_of_nil in Hin]. }
  split; [exact cholesky_R_keeps_row_count|]. split; [exact HN|]. split; [exact Hall|].
  split; [exact factorization_fails_one_time4|]. split; [exact Hout|].
  exact (estimator_cell_key_error_after_failure (λ _, 0%R) (λ _, 0%R) time4 normal0
           cholesky_R fbm_entry [half] [half] 1%R 0 cholesky_R_keeps_row_count HN Hall
           factorization_fails_one_time4 Hout).
Defined.

(** X19: with uniform draws in [[0, 1)], the cell that draws the values of
    [alpha] makes four draws and returns a list of five values with 0.5 at
    index 2: the two halved draws in increasing order before it, both in
    [[0, 0.5)], and the two other values in increasing order after it, both
    in [[0.5, 1]]. *)
Theorem alphas_are_sorted_around_half (uniform : nat → R) (k : nat) :
  (∀ j, (0 <= uniform j < 1)%R) →
  ∃ a0 a1 a3 a4 : R,
    alphas_cell Rlt_bool uniform k = ([a0; a1; / 2; a3; a4]%R, k + 4) ∧
    a0 = lo (uniform k / 2) (uniform (k + 1) / 2) ∧
    a1 = hi (uniform k / 2) (uniform (k + 1) / 2) ∧
    a3 = lo (/ 2 + uniform (k + 2) / 2) (/ 2 + uniform (k + 3) / 2) ∧
    a4 = hi (/ 2 + uniform (k + 2) / 2) (/ 2 + uniform (k + 3) / 2) ∧
    (0 <= a0 <= a1)%R ∧ (a1 < / 2)%R ∧ (/ 2 <= a3 <= a4)%R ∧ (a4 <= 1)%R.
Proof.
  intros Hu.
  pose proof (Hu k) as H0. pose proof (Hu (k + 1)) as H1.
  pose proof (Hu (k + 2)) as H2. pose proof (Hu (k + 3)) as H3.
  eexists _, _, _, _. split.
  { unfold alphas_cell. cbn [fdiv fadd of_int half R_arith]. f_equal.
    apply py_sort_five; lra. }
  repeat (split; [reflexivity|]).
  unfold lo, hi. repeat real_case; lra.
Qed.

Lemma alphas_are_sorted_around_half_witness :
  (∀ j : nat, (0 <= / 4 < 1)%R) ∧
  ∃ a0 a1 a3 a4 : R,
    alphas_cell Rlt_bool (λ _, / 4)%R 0 = ([a0; a1; / 2; a3; a4]%R, 0 + 4) ∧
    a0 = lo (/ 4 / 2) (/ 4 / 2) ∧
    a1 = hi (/ 4 / 2) (/ 4 / 2) ∧
    a3 = lo (/ 2 + / 4 / 2) (/ 2 + / 4 / 2) ∧
    a4 = hi (/ 2 + / 4 / 2) (/ 2 + / 4 / 2) ∧
    (0 <= a0 <= a1)%R ∧ (a1 < / 2)%R ∧ (/ 2 <= a3 <= a4)%R ∧ (a4 <= 1)%R.
Proof.
  assert (Hu : ∀ j : nat, (0 <= (λ _ : nat, / 4) j < 1)%R) by (intros j; simpl; lra).
  split; [exact Hu|].
  exact (alphas_are_sorted_around_half (λ _, / 4)%R 0 Hu).
Defined.

(** X20: with [alpha = 0] every entry of the fBm matrix is 0.5,
    whatever the times of the grid, infinities and nan included: every power
    has the exponent zero and is 1. *)
Theorem fbm_alpha_zero_is_constant_half (time : list xreal) (i j : nat) :
  i < N time → j < N time →
  ∃ M, fbm_mat_cov time (Fin 0) = Ok M ∧ mat_lookup M i j = Some (Fin (/ 2)).
Proof.
  intros Hi Hj.
  destruct (assemble_spec time (fbm_entry (Fin 0))) as (M & E & _ & Hval).
  exists M. split; [exact E|]. rewrite (Hval i j Hi Hj). f_equal.
  unfold assigned, fbm_entry.
  cbn [fmul fadd fsub fpow fabs of_int half xreal_arith xmul].
  rewrite !xpow_zero. cbn [xadd xsub xneg xmul]. f_equal. lra.
Qed.

Lemma fbm_alpha_zero_is_constant_half_witness :
  0 < N [NaN; PInf] ∧ 1 < N [NaN; PInf] ∧
  ∃ M, fbm_mat_cov [NaN; PInf] (Fin 0) = Ok M ∧ mat_lookup M 0 1 = Some (Fin (/ 2)).
Proof.
  assert (H0 : 0 < N [NaN; PInf]) by (unfold N; simpl; lia).
  assert (H1 : 1 < N [NaN; PInf]) by (unfold N; simpl; lia).
  split; [exact H0|]. split; [exact H1|].
  exact (fbm_alpha_zero_is_constant_half [NaN; PInf] 0 1 H0 H1).
Defined.

(** X21: in exact arithmetic, when row [i ≥ 1] of the factor ends with
    zeros, the entry [i] of the path is the product of the part of the row
    before these zeros with the first draws of the block: the draws that
    meet the zeros do not enter it. *)
Theorem triangular_factor_reads_first_draws (time : list R) (normal : nat → R)
    (C : matrix R) (k i m : nat) (row : list R) :
  1 ≤ i → C !! i = Some (row ++ replicate m 0%R) → length row ≤ N time →
  ∃ Y, draw_path time normal C k = Ok (Y, k + N time) ∧
       Y !! i = Some (dot_row row (normal_vec normal k (length row))).
Proof.
  intros Hi Erow Hlen.
  assert (HC : C ≠ []) by (intros ->; done).
  eexists. split; [by apply draw_path_ok|].
  rewrite list_lookup_insert_ne by lia.
  rewrite (np_dot_lookup C _ _ i Erow). f_equal.
  rewrite dot_row_trailing_zeros. by rewrite take_normal_vec.
Qed.

Lemma triangular_factor_reads_first_draws_witness :
  1 ≤ 1 ∧ [[1; 0; 0]; [1; 1; 0]; [1; 1; 1]]%R !! 1 = Some ([1; 1] ++ replicate 1 0)%R ∧
  length [1; 1]%R ≤ N [1; 2; 3]%R ∧
  ∃ Y, draw_path [1; 2; 3]%R normal0 [[1; 0; 0]; [1; 1; 0]; [1; 1; 1]]%R 0
         = Ok (Y, 0 + N [1; 2; 3]%R) ∧
       Y !! 1 = Some (dot_row [1; 1]%R (normal_vec normal0 0 (length [1; 1]%R))).
Proof.
  assert (Hi : 1 ≤ 1) by lia.
  assert (Hlen : length [1; 1]%R ≤ N [1; 2; 3]%R) by (unfold N; simpl; lia).
  split; [exact Hi|]. split; [reflexivity|]. split; [exact Hlen|].
  exact (triangular_factor_reads_first_draws [1; 2; 3]%R normal0
           [[1; 0; 0]; [1; 1; 0]; [1; 1; 1]]%R 0 1 1 [1; 1]%R Hi eq_refl Hlen).
Defined.
